(** * ezjson: path-based lookup in decoded JSON values

    A shallow embedding of [ezjson.go] (package [ezjson]) and the properties
    of its lookup functions.  Go values of static type [interface{}] are a
    tagged union over the dynamic types the code distinguishes, a variadic
    [keys ...interface{}] is a list of tagged keys, and a Go function that
    returns [(res, err)] returns a pair of a result and an optional error;
    a run-time panic is an outcome of its own. *)

From Stdlib Require Import Ascii String ZArith Lia.
From stdpp Require Import gmap strings list pretty.

#[local] Set Warnings "-register-all".
Local Open Scope string_scope.
Local Open Scope list_scope.
Local Open Scope Z_scope.

(** ** Data model *)

(** A Go value held in an [interface{}].  [VNil] is the nil interface (JSON
    null), [VNumber] is [json.Number] (a string type), [VSlice] is
    [[]interface{}] whose [None] is the nil slice, [VMap] is
    [map[string]interface{}] (a nil map reads like the empty one), and
    [VOther] stands for every other dynamic type ([float64], [int], ...). *)
Inductive value :=
  | VNil
  | VBool (b : bool)
  | VNumber (n : string)
  | VString (s : string)
  | VSlice (a : option (list value))
  | VMap (m : gmap string value)
  | VOther (tag : nat).

(** [len(a)] for a slice. *)
Definition len (a : option (list value)) : Z :=
  match a with
  | Some l => Z.of_nat (length l)
  | None => 0
  end.

(** [a[k]] for a slice: Go panics when [k] is out of range. *)
Definition slice_index (a : option (list value)) (k : Z) : option value :=
  match a with
  | Some l => if decide (0 ≤ k) then l !! Z.to_nat k else None
  | None => None
  end.

(** [type Option int], with its one named constant. *)
Definition ErrorOnNull : Z := 1.

(** One element of [keys ...interface{}], by dynamic type: [int], [string],
    [Option], or anything else; for the last only its rendering under
    [fmt]'s default format is kept, the one thing the code reads of it. *)
Inductive key :=
  | KInt (k : Z)
  | KString (k : string)
  | KOption (k : Z)
  | KOther (repr : string).

(** [strconv.ErrSyntax] and [strconv.ErrRange]. *)
Inductive num_err := ErrSyntax | ErrRange.

(** The error values the package returns: its own [*KeyError] and
    [*NullError], and [*strconv.NumError] from the numeric conversions. *)
Inductive error :=
  | KeyError (Msg : string) (Idx : Z) (Key : string)
  | NullError (Key : string)
  | NumError (Func Num : string) (Err : num_err).

(** What a call does: it returns [(res, err)], or it panics. *)
Inductive outcome (A : Type) :=
  | Returns (res : A) (err : option error)
  | Panics.
Arguments Returns {A} res err.
Arguments Panics {A}.

(** [strconv.Itoa]. *)
Definition Itoa (k : Z) : string := pretty k.

(** [fmt.Sprint("#v", k)] for an [Option] and for a key of another type: the
    first operand is a string, so no space is put between the two. *)
Definition Sprint_hash_v (repr : string) : string := "#v" +:+ repr.

(** ** GetPropertyWithType *)

(** The local variables of [GetPropertyWithType].  [idx] and [ok] are the
    variables declared in its first statement; the [range] clause and the
    [var ok bool] of the loop declare variables of their own under the same
    names. *)
Record locals := Locals {
  intf : value;
  skey : string;
  idx : Z;
  ok : bool;
  returnErrorOnNull : bool;
  expectOptions : bool
}.

Definition set_key (l : locals) (s : string) : locals :=
  Locals (intf l) s (idx l) (ok l) (returnErrorOnNull l) false.

Definition set_intf (l : locals) (v : value) : locals :=
  Locals v (skey l) (idx l) (ok l) (returnErrorOnNull l) (expectOptions l).

Definition set_returnErrorOnNull (l : locals) : locals :=
  Locals (intf l) (skey l) (idx l) (ok l) true (expectOptions l).

Definition set_ok (l : locals) (b : bool) : locals :=
  Locals (intf l) (skey l) (idx l) b (returnErrorOnNull l) (expectOptions l).

(** The result of one iteration of the loop, or of the whole loop. *)
Inductive flow :=
  | Continue (l : locals)
  | Return (e : error)
  | Panic.

(** The body of [for idx, key := range keys], at loop index [i]. *)
Definition loop_body (i : Z) (k : key) (l : locals) : flow :=
  match k with
  | KInt k =>
      let l := set_key l (Itoa k) in
      match intf l with
      | VSlice a =>
          if (k <? 0) || (k >=? len a)
          then Return (KeyError "Array index out of bounds" i (skey l))
          else match slice_index a k with
               | Some v => Continue (set_intf l v)
               | None => Panic
               end
      | _ => Return (KeyError "No array found" i (skey l))
      end
  | KString k =>
      let l := set_key l k in
      match intf l with
      | VMap m =>
          match m !! k with
          | Some v => Continue (set_intf l v)
          | None => Return (KeyError "Object property not found" i (skey l))
          end
      | _ => Return (KeyError "No object found" i (skey l))
      end
  | KOption k =>
      if expectOptions l
      then Continue (if decide (k = ErrorOnNull) then set_returnErrorOnNull l else l)
      else Return (KeyError "Options must be specified before the actual keys" i
                     (Sprint_hash_v (Itoa k)))
  | KOther repr =>
      Return (KeyError "Not int or string" i (Sprint_hash_v repr))
  end.

(** The loop over [keys], entered at loop index [i]. *)
Fixpoint range_keys (i : Z) (keys : list key) (l : locals) : flow :=
  match keys with
  | [] => Continue l
  | k :: keys =>
      match loop_body i k l with
      | Continue l => range_keys (i + 1) keys l
      | r => r
      end
  end.

(** [switch dType]: the type assertion of the matching case, and [ok] as it
    was when no case matches. *)
Definition type_switch (dType : string) (l : locals) : locals :=
  if String.eqb dType "array" then
    set_ok l (match intf l with VSlice _ => true | _ => false end)
  else if String.eqb dType "number" then
    set_ok l (match intf l with VNumber _ => true | _ => false end)
  else if String.eqb dType "string" then
    set_ok l (match intf l with VString _ => true | _ => false end)
  else if String.eqb dType "bool" then
    set_ok l (match intf l with VBool _ => true | _ => false end)
  else l.

Definition is_nil (v : value) : bool :=
  match v with VNil => true | _ => false end.

(** The statements after the loop. *)
Definition after_loop (dType : string) (l : locals) : outcome value :=
  let l := type_switch dType l in
  if negb (ok l) && negb (is_nil (intf l)) then
    Returns VNil (Some (KeyError ("Property is not of type " +:+ dType) (idx l) (skey l)))
  else if is_nil (intf l) && returnErrorOnNull l then
    Returns VNil (Some (NullError (skey l)))
  else Returns (intf l) None.

(** The values of the first statement. *)
Definition init (v : value) : locals := Locals v "" 0 true false true.

(** How the function ends: a [return nil, &KeyError{...}] inside the loop,
    or the statements after the loop. *)
Definition finish (dType : string) (f : flow) : outcome value :=
  match f with
  | Continue l => after_loop dType l
  | Return e => Returns VNil (Some e)
  | Panic => Panics
  end.

Definition GetPropertyWithType (v : value) (dType : string) (keys : list key)
  : outcome value :=
  finish dType (range_keys 0 keys (init v)).

Definition GetProperty (v : value) (keys : list key) : outcome value :=
  GetPropertyWithType v "" keys.

(** ** strconv.ParseInt, as [json.Number.Int64] calls it

    [func (n Number) Int64() (int64, error)] is
    [strconv.ParseInt(string(n), 10, 64)].  The two functions of [strconv]
    are written out for [base = 10] and [bitSize = 64]; a [uint64] is a [Z]
    reduced modulo [2^64], an [int64] a [Z] wrapped into [-2^63 .. 2^63-1]. *)

Definition byte (c : ascii) : Z := Z.of_N (N_of_ascii c).

Definition maxUint64 : Z := 2 ^ 64 - 1.

Definition to_uint64 (z : Z) : Z := z mod 2 ^ 64.

Definition to_int64 (z : Z) : Z := (z + 2 ^ 63) mod 2 ^ 64 - 2 ^ 63.

(** [lower(c)] is [c | ('x' - 'X')]. *)
Definition lower (c : Z) : Z := Z.lor c (byte "x" - byte "X").

(** The digit value of a byte, by the [switch] in the loop of [ParseUint]
    (its first case needs [base == 0] and is never taken here). *)
Definition digit_of_byte (c : Z) : option Z :=
  if (byte "0" <=? c) && (c <=? byte "9") then Some (c - byte "0")
  else if (byte "a" <=? lower c) && (lower c <=? byte "z")
       then Some (lower c - byte "a" + 10)
       else None.

(** The loop of [ParseUint] over the bytes of [s], with [n] so far: the
    value returned and the kind of error, if any. *)
Fixpoint ParseUint_loop (s : string) (n : Z) : Z * option num_err :=
  match s with
  | EmptyString => (n, None)
  | String c s =>
      match digit_of_byte (byte c) with
      | None => (0, Some ErrSyntax)
      | Some d =>
          if d >=? 10 then (0, Some ErrSyntax)
          else if n >=? maxUint64 / 10 + 1 then (maxUint64, Some ErrRange)
          else
            let n := to_uint64 (n * 10) in
            let n1 := to_uint64 (n + d) in
            if (n1 <? n) || (n1 >? maxUint64) then (maxUint64, Some ErrRange)
            else ParseUint_loop s n1
      end
  end.

Definition ParseUint (s : string) : Z * option error :=
  match s with
  | EmptyString => (0, Some (NumError "ParseUint" s ErrSyntax))
  | _ =>
      match ParseUint_loop s 0 with
      | (n, Some e) => (n, Some (NumError "ParseUint" s e))
      | (n, None) => (n, None)
      end
  end.

Definition ParseInt (s0 : string) : Z * option error :=
  match s0 with
  | EmptyString => (0, Some (NumError "ParseInt" s0 ErrSyntax))
  | String c rest =>
      let neg := Ascii.eqb c "-" in
      let s := if Ascii.eqb c "+" || Ascii.eqb c "-" then rest else s0 in
      match ParseUint s with
      | (_, Some (NumError _ _ ErrSyntax)) =>
          (0, Some (NumError "ParseInt" s0 ErrSyntax))
      | (un, _) =>
          let cutoff := 2 ^ 63 in
          if negb neg && (un >=? cutoff) then
            (cutoff - 1, Some (NumError "ParseInt" s0 ErrRange))
          else if neg && (un >? cutoff) then
            (- cutoff, Some (NumError "ParseInt" s0 ErrRange))
          else
            let n := to_int64 un in
            (if neg then to_int64 (- n) else n, None)
      end
  end.

(** [json.Number.Int64]. *)
Definition Int64 (n : string) : Z * option error := ParseInt n.

(** ** The typed accessors *)

(** [if err != nil { return }] after a call: the error is passed on with the
    zero value of the named result, and the rest runs on the value only when
    there is no error. *)
Definition on_success {A B : Type} (r : outcome A) (zero : B)
    (rest : A → outcome B) : outcome B :=
  match r with
  | Returns x None => rest x
  | Returns _ (Some e) => Returns zero (Some e)
  | Panics => Panics
  end.

Definition GetArray (v : value) (keys : list key) : outcome (option (list value)) :=
  on_success (GetPropertyWithType v "array" keys) None
    (λ value, Returns (match value with VSlice a => a | _ => None end) None).

Definition GetNumber (v : value) (keys : list key) : outcome string :=
  on_success (GetPropertyWithType v "number" keys) ""
    (λ value, Returns (match value with VNumber n => n | _ => "" end) None).

Definition GetInt (v : value) (keys : list key) : outcome Z :=
  on_success (GetNumber v keys) 0
    (λ num, let (res, err) := Int64 num in Returns res err).

Definition GetString (v : value) (keys : list key) : outcome string :=
  on_success (GetPropertyWithType v "string" keys) ""
    (λ value, Returns (match value with VString s => s | _ => "" end) None).

Definition GetBool (v : value) (keys : list key) : outcome bool :=
  on_success (GetPropertyWithType v "bool" keys) false
    (λ value, Returns (match value with VBool b => b | _ => false end) None).

(** [GetFloat] ends in [json.Number.Float64], that is
    [strconv.ParseFloat(string(n), 64)].  The binary floating-point
    conversion is kept out of the embedding: [GetFloat] is given over any
    type of floats and any conversion function. *)
Section GetFloat.
Variable float64 : Type.
Variable ParseFloat : string → float64 * option error.
Variable zero : float64.

Definition Float64 (n : string) : float64 * option error := ParseFloat n.

Definition GetFloat (v : value) (keys : list key) : outcome float64 :=
  on_success (GetNumber v keys) zero
    (λ num, let (res, err) := Float64 num in Returns res err).
End GetFloat.

(** ** Notions used to state the properties *)

(** A key or index segment, as opposed to an option or anything else. *)
Definition is_nav (k : key) : bool :=
  match k with KInt _ | KString _ => true | _ => false end.

(** The stringified key of the last segment of a path: that of a key or index
    segment, and the empty string when the path is empty or ends in an
    option, which has no key. *)
Definition last_segment_key (keys : list key) : string :=
  match last keys with
  | Some (KInt k) => Itoa k
  | Some (KString k) => k
  | _ => ""
  end.

(** The same error, one position further in the path. *)
Definition bump (e : error) : error :=
  match e with
  | KeyError m i k => KeyError m (i + 1) k
  | e => e
  end.

(** Two errors that differ at most in the position they report. *)
Definition same_but_Idx (e e' : error) : Prop :=
  match e, e' with
  | KeyError m _ k, KeyError m' _ k' => m = m' ∧ k = k'
  | _, _ => e = e'
  end.

(** The four values of [dType] that select a type check. *)
Definition checked_type (dType : string) : Prop :=
  dType = "array" ∨ dType = "number" ∨ dType = "string" ∨ dType = "bool".

(** The run-time tag of a value is the one [dType] names. *)
Definition has_type (dType : string) (v : value) : bool :=
  match v with
  | VSlice _ => String.eqb dType "array"
  | VNumber _ => String.eqb dType "number"
  | VString _ => String.eqb dType "string"
  | VBool _ => String.eqb dType "bool"
  | _ => false
  end.

(** What a change of the starting index and of the starting variables does
    to the result of the loop. *)
Definition flow_map (f : locals → locals) (g : error → error) (r : flow) : flow :=
  match r with
  | Continue l => Continue (f l)
  | Return e => Return (g e)
  | Panic => Panic
  end.

Definition options_msg : string :=
  "Options must be specified before the actual keys".

(** The document of the package's tests ([testDataString]), decoded. *)
Definition testData : value :=
  VMap (list_to_map [
    ("data", VMap (list_to_map [
       ("subData", VMap (list_to_map [
          ("array", VSlice (Some [
             VMap (list_to_map [("str", VString "a string");
                                ("int", VNumber "42")]);
             VString "string in array";
             VNumber "12.34";
             VBool true]));
          ("bool", VBool false)]));
       ("int", VNumber "123");
       ("str", VString "string in data")]));
    ("moreData", VMap (list_to_map [("str", VString "string in moreData")]));
    ("array", VSlice (Some [VNumber "1"; VNumber "2"; VNumber "3"]))]).

(** *** Decimal texts

    What it is for a string to be the decimal text of a 64-bit signed
    integer, stated on its own: an optional sign, then one digit or more,
    denoting a number from [-2^63] to [2^63 - 1]. *)

(** The place of a character in a string, counted from zero. *)
Fixpoint position (c : ascii) (s : string) : option Z :=
  match s with
  | EmptyString => None
  | String c' s => if Ascii.eqb c c' then Some 0 else Z.succ <$> position c s
  end.

(** The value of a decimal digit is its place among the ten digits. *)
Definition decimal_digit (c : ascii) : option Z := position c "0123456789".

(** The number denoted by the digits [s] written after the number [acc]. *)
Fixpoint decimal_value (acc : Z) (s : string) : option Z :=
  match s with
  | EmptyString => Some acc
  | String c s =>
      match decimal_digit c with
      | Some d => decimal_value (10 * acc + d) s
      | None => None
      end
  end.

Definition unsigned_text (s : string) : option Z :=
  match s with
  | EmptyString => None
  | _ => decimal_value 0 s
  end.

Definition integer_text (s : string) : option Z :=
  match s with
  | String "-" digits => Z.opp <$> unsigned_text digits
  | String "+" digits => unsigned_text digits
  | _ => unsigned_text s
  end.

Definition int64_text (s : string) : option Z :=
  match integer_text s with
  | Some z => if decide (- 2 ^ 63 ≤ z ≤ 2 ^ 63 - 1) then Some z else None
  | None => None
  end.

(** A document with null members. *)
Definition nullData : value :=
  VMap (list_to_map [("n", VNil); ("list", VSlice (Some [VNumber "7"; VNil]))]).

#[global] Instance key_eq_dec : EqDecision key.
Proof. solve_decision. Defined.

(** *** Paths as such

    What a path denotes in a document, without positions or errors: the
    member a key or index segment selects, and the value a sequence of them
    leads to. *)

Definition child (v : value) (k : key) : option value :=
  match k, v with
  | KInt n, VSlice a => slice_index a n
  | KString s, VMap m => m !! s
  | _, _ => None
  end.

Fixpoint lookup_path (v : value) (keys : list key) : option value :=
  match keys with
  | [] => Some v
  | k :: keys =>
      match child v k with
      | Some x => lookup_path x keys
      | None => None
      end
  end.

(** The key of a segment as the error values show it. *)
Definition key_string (k : key) : string :=
  match k with
  | KInt n => Itoa n
  | KString s => s
  | KOption o => Sprint_hash_v (Itoa o)
  | KOther repr => Sprint_hash_v repr
  end.

(** Two results of a call that are the same up to the position in the
    error. *)
Definition same_outcome_but_Idx {A : Type} (r r' : outcome A) : Prop :=
  match r, r' with
  | Returns x None, Returns x' None => x = x'
  | Returns x (Some e), Returns x' (Some e') => x = x' ∧ same_but_Idx e e'
  | Panics, Panics => True
  | _, _ => False
  end.

(** Two states of the variables that the statements after the loop cannot
    tell apart: they read everything but [expectOptions]. *)
Definition same_at_end (l l' : locals) : Prop :=
  intf l = intf l' ∧ skey l = skey l' ∧ idx l = idx l' ∧ ok l = ok l' ∧
  returnErrorOnNull l = returnErrorOnNull l'.

(** ** The earlier version of the package

    The source holds a second, earlier version of the file.  Its
    [GetProperty] returns the key of the last segment as a second result,
    indexes a slice without a bounds check, knows no options and no type to
    check; the typed accessors make the type assertion themselves; and the
    errors are made by [fmt.Errorf]. *)
Module Old.

(** The errors of the earlier version: the value of a [fmt.Errorf], known by
    its text, and the error of a numeric conversion. *)
Inductive old_error :=
  | Errorf (msg : string)
  | FromStrconv (e : error).

Inductive old_outcome (A : Type) :=
  | Returned (res : A) (err : option old_error)
  | Panicked.
Arguments Returned {A} res err.
Arguments Panicked {A}.

(** The double quote that the formats put around a key. *)
Definition quote : string := String "034" EmptyString.

(** The result of one iteration: go on with a value and a key, or return
    with the key and an error or none (the result [res] is still nil), or
    panic. *)
Inductive old_flow :=
  | Next (v : value) (s : string)
  | Stop (s : string) (err : option old_error)
  | Crash.

(** The body of [for idx, key := range keys]. *)
Definition loop_body (i : Z) (k : key) (v : value) (s : string) : old_flow :=
  match k with
  | KInt k =>
      let s := Itoa k in
      match v with
      | VSlice a =>
          match slice_index a k with
          | Some x => Next x s
          | None => Crash
          end
      | _ => Stop s (Some (Errorf ("No array found for key #" +:+ Itoa i +:+
                                    " (" +:+ Itoa k +:+ ")")))
      end
  | KString k =>
      let s := k in
      match v with
      | VMap m =>
          match m !! k with
          | Some x => Next x s
          | None =>
              Stop s (Some (Errorf ("Object property not found for key #" +:+
                                      Itoa i +:+ " (" +:+ quote +:+ k +:+
                                      quote +:+ ")")))
          end
      | _ => Stop s (Some (Errorf ("No object found for key #" +:+ Itoa i +:+
                                    " (" +:+ quote +:+ k +:+ quote +:+ ")")))
      end
  | _ => Stop s None
  end.

Fixpoint range_keys (i : Z) (keys : list key) (v : value) (s : string)
  : old_flow :=
  match keys with
  | [] => Next v s
  | k :: keys =>
      match loop_body i k v s with
      | Next v s => range_keys (i + 1) keys v s
      | r => r
      end
  end.

(** The results are [(res, skey, err)]. *)
Definition GetProperty (v : value) (keys : list key)
  : old_outcome (value * string) :=
  match range_keys 0 keys v "" with
  | Next v s => Returned (v, s) None
  | Stop s err => Returned (VNil, s) err
  | Crash => Panicked
  end.

Definition not_of_type (skey T : string) : old_error :=
  Errorf ("Property " +:+ quote +:+ skey +:+ quote +:+ " is not of type " +:+ T).

(** The common frame of the typed accessors: the error of [GetProperty] is
    passed on with the zero value, and a failed type assertion gives the
    zero value with an error naming the key and the type. *)
Definition assert_type {A : Type} (r : old_outcome (value * string))
    (zero : A) (T : string) (cast : value → option A) : old_outcome A :=
  match r with
  | Returned (value, skey) None =>
      match cast value with
      | Some res => Returned res None
      | None => Returned zero (Some (not_of_type skey T))
      end
  | Returned _ (Some e) => Returned zero (Some e)
  | Panicked => Panicked
  end.

Definition GetArray (v : value) (keys : list key)
  : old_outcome (option (list value)) :=
  assert_type (GetProperty v keys) None "array"
    (λ value, match value with VSlice a => Some a | _ => None end).

Definition GetNumber (v : value) (keys : list key) : old_outcome string :=
  assert_type (GetProperty v keys) "" "Number"
    (λ value, match value with VNumber n => Some n | _ => None end).

Definition GetString (v : value) (keys : list key) : old_outcome string :=
  assert_type (GetProperty v keys) "" "string"
    (λ value, match value with VString s => Some s | _ => None end).

Definition GetBool (v : value) (keys : list key) : old_outcome bool :=
  assert_type (GetProperty v keys) false "bool"
    (λ value, match value with VBool b => Some b | _ => None end).

Definition GetInt (v : value) (keys : list key) : old_outcome Z :=
  match GetNumber v keys with
  | Returned num None =>
      let (res, err) := Int64 num in Returned res (FromStrconv <$> err)
  | Returned _ (Some e) => Returned 0 (Some e)
  | Panicked => Panicked
  end.

(** [GetFloat], over any type of floats and any conversion, as for the
    later version. *)
Section GetFloat.
Variable float64 : Type.
Variable ParseFloat : string → float64 * option error.
Variable zero : float64.

Definition GetFloat (v : value) (keys : list key) : old_outcome float64 :=
  match GetNumber v keys with
  | Returned num None =>
      let (res, err) := Float64 float64 ParseFloat num in
      Returned res (FromStrconv <$> err)
  | Returned _ (Some e) => Returned zero (Some e)
  | Panicked => Panicked
  end.
End GetFloat.

End Old.

(** The text of the error of the earlier [GetProperty], from the fields of
    the [KeyError] of the later one: the message, the position, and the key,
    in quotes unless it is an index. *)
Definition old_message (m : string) (i : Z) (s : string) : string :=
  m +:+ " for key #" +:+ Itoa i +:+ " (" +:+
  (if String.eqb m "No array found" then s +:+ ")"
   else Old.quote +:+ s +:+ Old.quote +:+ ")").

(** *** Numbers as texts

    The number that the text of a JSON number denotes, to say in the words
    of the description of [GetInt] when a textual number is representable
    as a 64-bit signed integer: when it has no fractional part and does not
    overflow. *)

(** The digits at the head of [s]: their value after [acc], their count
    after [n], and the rest of the text. *)
Fixpoint take_digits (acc n : Z) (s : string) : Z * Z * string :=
  match s with
  | EmptyString => (acc, n, s)
  | String c rest =>
      match decimal_digit c with
      | Some d => take_digits (10 * acc + d) (n + 1) rest
      | None => (acc, n, s)
      end
  end.

(** The exponent part: nothing, or [e] or [E], an optional sign and digits
    up to the end of the text. *)
Definition exponent_part (s : string) : option Z :=
  match s with
  | EmptyString => Some 0
  | String c rest =>
      if Ascii.eqb c "e" || Ascii.eqb c "E" then
        match rest with
        | String "-" digits => Z.opp <$> unsigned_text digits
        | String "+" digits => unsigned_text digits
        | _ => unsigned_text rest
        end
      else None
  end.

(** A JSON number [-int.frac e exp] as a mantissa [m] and a decimal
    exponent [e]: the number is [m * 10^e]. *)
Definition number_value (s : string) : option (Z * Z) :=
  let (neg, s) := match s with
                  | String "-" rest => (true, rest)
                  | _ => (false, s)
                  end in
  let '(i, ni, s) := take_digits 0 0 s in
  if ni =? 0 then None else
  let '(m, nf, s) := match s with
                     | String "." rest => take_digits i 0 rest
                     | _ => (i, 0, s)
                     end in
  match exponent_part s with
  | Some x => Some (if neg then - m else m, x - nf)
  | None => None
  end.

(** The text writes a fractional part, or the number is not whole. *)
Definition has_fractional_part (s : string) : bool :=
  existsb (Ascii.eqb ".") (list_ascii_of_string s) ||
  match number_value s with
  | Some (m, e) => (e <? 0) && negb (m mod 10 ^ (- e) =? 0)
  | None => false
  end.

(** The whole number that a text without fractional part denotes. *)
Definition whole_value (s : string) : option Z :=
  match number_value s with
  | Some (m, e) =>
      if has_fractional_part s then None
      else Some (if e <? 0 then m / 10 ^ (- e) else m * 10 ^ e)
  | None => None
  end.

(** Representable as an [int64]: no fractional part and no overflow. *)
Definition representable_int64 (s : string) : option Z :=
  match whole_value s with
  | Some z => if decide (- 2 ^ 63 ≤ z ≤ 2 ^ 63 - 1) then Some z else None
  | None => None
  end.

(** A document with a member in exponent form, as the decoder keeps it. *)
Definition exponentData : value :=
  VMap (list_to_map [("n", VNumber "1e2")]).

(** * Properties *)

(** ** The loop *)

Lemma range_keys_app i pre post l :
  range_keys i (pre ++ post) l =
  match range_keys i pre l with
  | Continue l' => range_keys (i + Z.of_nat (length pre)) post l'
  | r => r
  end.
Proof.
  revert i l. induction pre as [|k pre IH]; intros i l; simpl.
  - by rewrite Z.add_0_r.
  - destruct (loop_body i k l); [|done..].
    rewrite IH. destruct (range_keys _ pre _); [|done..].
    f_equal. lia.
Qed.

(** An index that passed the bounds check is in the slice. *)
Lemma slice_index_in_bounds a k :
  (k <? 0) || (k >=? len a) = false → is_Some (slice_index a k).
Proof.
  intros H. apply orb_false_iff in H as [H1 H2].
  apply Z.ltb_ge in H1. rewrite Z.geb_leb in H2. apply Z.leb_gt in H2.
  destruct a as [l|]; simpl in *; [|lia].
  rewrite decide_True by done.
  apply lookup_lt_is_Some. lia.
Qed.

Lemma loop_body_no_panic i k l : loop_body i k l ≠ Panic.
Proof.
  destruct k as [k|k|k|r]; simpl; try done.
  - destruct (intf l); try done.
    destruct ((k <? 0) || (k >=? len a)) eqn:Hb; [done|].
    by destruct (slice_index_in_bounds _ _ Hb) as [x ->].
  - destruct (intf l); try done. by destruct (m !! k).
  - by destruct (expectOptions l).
Qed.

Lemma range_keys_no_panic keys : ∀ i l, range_keys i keys l ≠ Panic.
Proof.
  induction keys as [|k keys IH]; intros i l; simpl; [done|].
  destruct (loop_body i k l) eqn:Hk; [apply IH|done|].
  by apply loop_body_no_panic in Hk.
Qed.

(** The loop fails at the first segment whose iteration returns. *)
Lemma range_keys_Return_inv keys : ∀ i l e,
  range_keys i keys l = Return e →
  ∃ pre k post l',
    keys = pre ++ k :: post ∧
    range_keys i pre l = Continue l' ∧
    loop_body (i + Z.of_nat (length pre)) k l' = Return e.
Proof.
  induction keys as [|k keys IH]; intros i l e H; simpl in H; [done|].
  destruct (loop_body i k l) as [l1| |] eqn:Hk; [|injection H as <-|done].
  - destruct (IH _ _ _ H) as (pre & k' & post & l' & -> & Hpre & Hb).
    exists (k :: pre), k', post, l'. split; [done|]. simpl. rewrite Hk.
    split; [done|]. rewrite <- Hb. f_equal. lia.
  - exists [], k, keys, l. simpl. rewrite Z.add_0_r. done.
Qed.

(** What an iteration that does not return has done. *)
Lemma loop_body_Continue_inv i k l l' :
  loop_body i k l = Continue l' →
  match k with
  | KInt n => ∃ a x, intf l = VSlice a ∧ 0 ≤ n < len a ∧
                     slice_index a n = Some x ∧ l' = set_intf (set_key l (Itoa n)) x
  | KString s => ∃ m x, intf l = VMap m ∧ m !! s = Some x ∧
                        l' = set_intf (set_key l s) x
  | KOption o => expectOptions l = true ∧
                 l' = if decide (o = ErrorOnNull) then set_returnErrorOnNull l else l
  | KOther _ => False
  end.
Proof.
  destruct k as [n|s|o|r]; simpl; intros H; try done.
  - destruct (intf l) eqn:Hv; try done.
    destruct ((n <? 0) || (n >=? len a)) eqn:Hb; [done|].
    destruct (slice_index a n) as [x|] eqn:Hx; [|done].
    injection H as <-. exists a, x. repeat split; try done.
    all: apply orb_false_iff in Hb as [H1 H2]; rewrite Z.geb_leb in H2; lia.
  - destruct (intf l) eqn:Hv; try done.
    destruct (m !! s) as [x|] eqn:Hx; [|done].
    injection H as <-. by exists m, x.
  - destruct (expectOptions l); [|done]. by injection H as <-.
Qed.

(** The variables [idx] and [ok] of the first statement are not assigned in
    the loop. *)
Lemma loop_body_outer i k l l' :
  loop_body i k l = Continue l' → idx l' = idx l ∧ ok l' = ok l.
Proof.
  intros H. apply loop_body_Continue_inv in H.
  destruct k as [n|s|o|r]; [| | |done].
  - by destruct H as (a & x & _ & _ & _ & ->).
  - by destruct H as (m & x & _ & _ & ->).
  - destruct H as [_ ->]. by destruct (decide _).
Qed.

Lemma range_keys_outer keys : ∀ i l l',
  range_keys i keys l = Continue l' → idx l' = idx l ∧ ok l' = ok l.
Proof.
  induction keys as [|k keys IH]; intros i l l' H; simpl in H.
  - by injection H as <-.
  - destruct (loop_body i k l) as [l1| |] eqn:Hk; try done.
    apply loop_body_outer in Hk as [<- <-]. eauto.
Qed.

(** Options are accepted exactly until the first key or index segment. *)
Lemma range_keys_expectOptions keys : ∀ i l l',
  range_keys i keys l = Continue l' →
  expectOptions l' = expectOptions l && negb (existsb is_nav keys).
Proof.
  induction keys as [|k keys IH]; intros i l l' H; simpl in H.
  - injection H as <-. simpl. by rewrite andb_true_r.
  - destruct (loop_body i k l) as [l1| |] eqn:Hk; try done.
    rewrite (IH _ _ _ H). apply loop_body_Continue_inv in Hk.
    destruct k as [n|s|o|r]; [| | |done]; simpl.
    + destruct Hk as (a & x & _ & _ & _ & ->). simpl. by rewrite andb_false_r.
    + destruct Hk as (m & x & _ & _ & ->). simpl. by rewrite andb_false_r.
    + destruct Hk as [_ ->]. by destruct (decide _).
Qed.

(** While options are still accepted, nothing but options has been seen:
    the value and the key are those of the start. *)
Lemma range_keys_only_options keys : ∀ i l l',
  range_keys i keys l = Continue l' → expectOptions l' = true →
  intf l' = intf l ∧ skey l' = skey l.
Proof.
  induction keys as [|k keys IH]; intros i l l' H He; simpl in H.
  - by injection H as <-.
  - destruct (loop_body i k l) as [l1| |] eqn:Hk; try done.
    pose proof (range_keys_expectOptions _ _ _ _ H) as He1.
    rewrite He in He1. symmetry in He1. apply andb_true_iff in He1 as [He1 _].
    destruct (IH _ _ _ H He) as [-> ->].
    apply loop_body_Continue_inv in Hk.
    destruct k as [n|s|o|r]; [| | |done].
    + by destruct Hk as (a & x & _ & _ & _ & ->).
    + by destruct Hk as (m & x & _ & _ & ->).
    + destruct Hk as [_ ->]. by destruct (decide _).
Qed.

(** [returnErrorOnNull] is set by an [ErrorOnNull] in the path, and by
    nothing else. *)
Lemma range_keys_returnErrorOnNull keys : ∀ i l l',
  range_keys i keys l = Continue l' →
  returnErrorOnNull l' =
  returnErrorOnNull l || bool_decide (KOption ErrorOnNull ∈ keys).
Proof.
  induction keys as [|k keys IH]; intros i l l' H; simpl in H.
  - injection H as <-. rewrite bool_decide_false; [by rewrite orb_false_r|].
    apply not_elem_of_nil.
  - destruct (loop_body i k l) as [l1| |] eqn:Hk; try done.
    rewrite (IH _ _ _ H). apply loop_body_Continue_inv in Hk.
    assert (∀ b : bool, k ≠ KOption ErrorOnNull →
      b || bool_decide (KOption ErrorOnNull ∈ keys) =
      b || bool_decide (KOption ErrorOnNull ∈ k :: keys)) as Hne.
    { intros b Hk'. f_equal. apply bool_decide_ext.
      rewrite elem_of_cons. split; [by right|]. by intros [<-|?]. }
    destruct k as [n|s|o|r]; [| | |done].
    + destruct Hk as (a & x & _ & _ & _ & ->). by apply Hne.
    + destruct Hk as (m & x & _ & _ & ->). by apply Hne.
    + destruct Hk as [_ ->]. destruct (decide (o = ErrorOnNull)) as [->|Ho].
      * rewrite (bool_decide_true (_ ∈ _ :: _)); [|by left].
        by rewrite orb_true_r.
      * apply Hne. congruence.
Qed.

(** After a loop that ran to its end, [skey] is the key of the last
    segment. *)
Lemma range_keys_skey v keys l :
  range_keys 0 keys (init v) = Continue l → skey l = last_segment_key keys.
Proof.
  destruct keys as [|k keys _] using rev_ind; simpl; intros H.
  - by injection H as <-.
  - rewrite range_keys_app in H.
    destruct (range_keys 0 keys (init v)) as [l1| |] eqn:Hpre; try done.
    simpl in H.
    destruct (loop_body _ k l1) as [l2| |] eqn:Hk; try done.
    injection H as <-. unfold last_segment_key. rewrite last_snoc.
    pose proof Hk as Hk'. apply loop_body_Continue_inv in Hk'.
    destruct k as [n|s|o|r]; [| | |done].
    + by destruct Hk' as (a & x & _ & _ & _ & ->).
    + by destruct Hk' as (m & x & _ & _ & ->).
    + destruct Hk' as [He Hl2].
      destruct (range_keys_only_options _ _ _ _ Hpre He) as [_ Hs].
      rewrite Hl2. by destruct (decide _).
Qed.

(** ** The statements after the loop *)

(** [switch dType] assigns [ok] and nothing else. *)
Lemma type_switch_fields dType l :
  intf (type_switch dType l) = intf l ∧
  skey (type_switch dType l) = skey l ∧
  idx (type_switch dType l) = idx l ∧
  returnErrorOnNull (type_switch dType l) = returnErrorOnNull l.
Proof. unfold type_switch. by repeat case_match. Qed.

(** For one of the four checked types, [ok] says whether the tag matches. *)
Lemma type_switch_ok dType l :
  checked_type dType → ok (type_switch dType l) = has_type dType (intf l).
Proof.
  intros [ -> | [ -> | [ -> | -> ] ] ]; unfold type_switch; simpl; by destruct (intf l).
Qed.

(** For any other [dType], no case of the switch is taken. *)
Lemma type_switch_unchecked dType l :
  ¬ checked_type dType → type_switch dType l = l.
Proof.
  intros H. unfold type_switch, checked_type in *.
  repeat (case_match; [rewrite String.eqb_eq in *; tauto|]). done.
Qed.

(** A null at the end of the path is never a type mismatch. *)
Lemma after_loop_nil dType l :
  intf l = VNil →
  after_loop dType l =
  if returnErrorOnNull l then Returns VNil (Some (NullError (skey l)))
  else Returns VNil None.
Proof.
  intros Hv. unfold after_loop.
  destruct (type_switch_fields dType l) as (-> & -> & _ & ->).
  rewrite Hv. simpl. rewrite andb_false_r. by destruct (returnErrorOnNull l).
Qed.

(** A value that is not null passes exactly when [ok] holds. *)
Lemma after_loop_not_nil dType l :
  intf l ≠ VNil →
  after_loop dType l =
  if ok (type_switch dType l) then Returns (intf l) None
  else Returns VNil (Some (KeyError ("Property is not of type " +:+ dType)
                             (idx l) (skey l))).
Proof.
  intros Hv. unfold after_loop.
  destruct (type_switch_fields dType l) as (-> & -> & -> & _).
  destruct (intf l); try done; simpl; rewrite andb_true_r;
    by destruct (ok _).
Qed.

(** C1: when every segment of the path resolves and the value at the end is
    not null and not of the type asked for, the call fails with a [KeyError]
    whose [Key] is the key of the last segment and whose [Idx] is 0 whatever
    the length of the path: the [idx] it reads is the variable of the first
    statement, which the loop, with an [idx] of its own, never assigns. *)
Theorem type_mismatch_result v dType keys l :
  range_keys 0 keys (init v) = Continue l →
  checked_type dType → intf l ≠ VNil → has_type dType (intf l) = false →
  GetPropertyWithType v dType keys =
  Returns VNil (Some (KeyError ("Property is not of type " +:+ dType) 0
                        (last_segment_key keys))).
Proof.
  intros Hl Hd Hv Ht. unfold GetPropertyWithType. rewrite Hl. simpl.
  rewrite after_loop_not_nil by done. rewrite type_switch_ok, Ht by done.
  destruct (range_keys_outer _ _ _ _ Hl) as [-> _].
  by rewrite (range_keys_skey _ _ _ Hl).
Qed.

(** ** Properties of GetPropertyWithType *)

(** C3: for every value, every [dType] and every sequence of keys,
    [GetPropertyWithType] returns: it does not panic (the one indexing
    [a[k]] is reached only within bounds), and whenever it returns an error
    the result is nil and the error is a [KeyError] or a [NullError]. *)
Theorem GetPropertyWithType_total v dType keys :
  ∃ res err,
    GetPropertyWithType v dType keys = Returns res err ∧
    (err = None ∨
     res = VNil ∧ ((∃ m i k, err = Some (KeyError m i k)) ∨
                   (∃ k, err = Some (NullError k)))).
Proof.
  unfold GetPropertyWithType.
  destruct (range_keys 0 keys (init v)) as [l|e|] eqn:Hl; simpl.
  - unfold after_loop. repeat case_match; eauto 10.
  - apply range_keys_Return_inv in Hl as (pre & k & post & l' & _ & _ & Hk).
    exists VNil, (Some e). split; [done|]. right. split; [done|]. left.
    destruct k as [n|s|o|r]; simpl in Hk; repeat case_match;
      try done; injection Hk as <-; eauto.
  - by apply range_keys_no_panic in Hl.
Qed.

(** C5: when the traversal of the path ends at null, whatever type was
    asked for, no type mismatch is reported: the call fails with a
    [NullError] carrying the last segment's key exactly when [ErrorOnNull]
    is among the keys, and otherwise returns null with no error. *)
Theorem null_at_end_of_path v dType keys l :
  range_keys 0 keys (init v) = Continue l → intf l = VNil →
  GetPropertyWithType v dType keys =
  if bool_decide (KOption ErrorOnNull ∈ keys)
  then Returns VNil (Some (NullError (last_segment_key keys)))
  else Returns VNil None.
Proof.
  intros Hl Hv. unfold GetPropertyWithType. rewrite Hl. simpl.
  rewrite after_loop_nil by done.
  rewrite (range_keys_returnErrorOnNull _ _ _ _ Hl). simpl.
  by rewrite (range_keys_skey _ _ _ Hl).
Qed.

(** C9: [GetProperty] with no keys returns the root as it is, with a nil
    error; with [dType] empty no case of the type switch is taken, and no
    call of [GetProperty] reports a type mismatch. *)
Theorem GetProperty_empty_path v :
  GetProperty v [] = Returns v None ∧
  (∀ l, type_switch "" l = l) ∧
  (∀ keys res dType i k,
     GetProperty v keys ≠
     Returns res (Some (KeyError ("Property is not of type " +:+ dType) i k))).
Proof.
  split; [by destruct v|]. split; [done|].
  intros keys res d i k. unfold GetProperty, GetPropertyWithType.
  destruct (range_keys 0 keys (init v)) as [l|e|] eqn:Hl; simpl; [| |done].
  - unfold after_loop. change (type_switch "" l) with l.
    destruct (range_keys_outer _ _ _ _ Hl) as [_ ->]. simpl.
    by repeat case_match.
  - apply range_keys_Return_inv in Hl as (pre & k' & post & l' & _ & _ & Hk).
    destruct k' as [n|s|o|r]; simpl in Hk; repeat case_match;
      try done; injection Hk as <-; intros [= ]; done.
Qed.

(** C6: at a slice of length [n] reached after the segments [pre], an index
    [k] that is negative or at least [n] fails with "Array index out of
    bounds" at the position of that segment, with the decimal string of [k]
    as key; an index within [0 .. n-1] makes the [k]-th element the current
    value, and the rest of the path is walked from there. *)
Theorem array_index_bounds v dType pre k post l a :
  range_keys 0 pre (init v) = Continue l → intf l = VSlice a →
  let i := Z.of_nat (length pre) in
  ((k < 0 ∨ len a ≤ k) →
     GetPropertyWithType v dType (pre ++ KInt k :: post) =
     Returns VNil (Some (KeyError "Array index out of bounds" i (Itoa k)))) ∧
  (0 ≤ k < len a →
     ∃ elems x l',
       a = Some elems ∧ elems !! Z.to_nat k = Some x ∧
       range_keys 0 (pre ++ [KInt k]) (init v) = Continue l' ∧
       intf l' = x ∧
       GetPropertyWithType v dType (pre ++ KInt k :: post) =
       finish dType (range_keys (i + 1) post l')).
Proof.
  intros Hpre Hv i. unfold GetPropertyWithType.
  rewrite !range_keys_app, Hpre. simpl. rewrite Hv. split; intros Hk.
  - replace ((k <? 0) || (k >=? len a)) with true; [done|].
    symmetry. apply orb_true_iff. rewrite Z.geb_leb. lia.
  - replace ((k <? 0) || (k >=? len a)) with false
      by (symmetry; apply orb_false_iff; rewrite Z.geb_leb; lia).
    destruct a as [elems|]; simpl in *; [|lia].
    rewrite decide_True by lia.
    destruct (lookup_lt_is_Some_2 elems (Z.to_nat k)) as [x Hx]; [lia|].
    rewrite Hx. eauto 10.
Qed.

(** C7: after a prefix that resolves, an integer segment on a value that is
    not a slice fails with "No array found", a string segment on a value
    that is not a map fails with "No object found", and a string key that
    the map does not have fails with "Object property not found"; each at
    the position of that segment and with its stringified key. *)
Theorem wrong_container_or_missing_key v dType pre post l :
  range_keys 0 pre (init v) = Continue l →
  let i := Z.of_nat (length pre) in
  (∀ k, (∀ a, intf l ≠ VSlice a) →
     GetPropertyWithType v dType (pre ++ KInt k :: post) =
     Returns VNil (Some (KeyError "No array found" i (Itoa k)))) ∧
  (∀ k, (∀ m, intf l ≠ VMap m) →
     GetPropertyWithType v dType (pre ++ KString k :: post) =
     Returns VNil (Some (KeyError "No object found" i k))) ∧
  (∀ k m, intf l = VMap m → m !! k = None →
     GetPropertyWithType v dType (pre ++ KString k :: post) =
     Returns VNil (Some (KeyError "Object property not found" i k))).
Proof.
  intros Hpre i. unfold GetPropertyWithType. split; [|split].
  - intros k Hv. rewrite range_keys_app, Hpre. simpl.
    destruct (intf l); try done. by destruct (Hv a).
  - intros k Hv. rewrite range_keys_app, Hpre. simpl.
    destruct (intf l); try done. by destruct (Hv m).
  - intros k m Hv Hk. rewrite range_keys_app, Hpre. simpl.
    by rewrite Hv, Hk.
Qed.

(** ** A path with one more option in front *)

Section Prefix.
(** A change [f] of the variables that the loop body does not observe.
    Every iteration then does the same one position later. *)
Variable f : locals → locals.
Hypothesis f_body : ∀ i k l,
  loop_body (i + 1) k (f l) = flow_map f bump (loop_body i k l).

Lemma range_keys_shift keys : ∀ i l,
  range_keys (i + 1) keys (f l) = flow_map f bump (range_keys i keys l).
Proof using f_body.
  induction keys as [|k keys IH]; intros i l; simpl; [done|].
  rewrite f_body. destruct (loop_body i k l); simpl; [apply IH|done..].
Qed.
End Prefix.

Lemma loop_body_shift i k l :
  loop_body (i + 1) k l = flow_map id bump (loop_body i k l).
Proof.
  destruct k as [n|s|o|r]; simpl; repeat case_match; done.
Qed.

Lemma loop_body_shift_returnErrorOnNull i k l :
  loop_body (i + 1) k (set_returnErrorOnNull l) =
  flow_map set_returnErrorOnNull bump (loop_body i k l).
Proof.
  destruct k as [n|s|o|r]; simpl; repeat case_match; done.
Qed.

(** The path with an option other than [ErrorOnNull] in front. *)
Lemma GetPropertyWithType_other_option v dType keys o :
  o ≠ ErrorOnNull →
  GetPropertyWithType v dType (KOption o :: keys) =
  finish dType (flow_map id bump (range_keys 0 keys (init v))).
Proof.
  intros Ho. unfold GetPropertyWithType. simpl.
  rewrite decide_False by done.
  by rewrite <- (range_keys_shift id loop_body_shift).
Qed.

(** The path with [ErrorOnNull] in front. *)
Lemma GetPropertyWithType_ErrorOnNull v dType keys :
  GetPropertyWithType v dType (KOption ErrorOnNull :: keys) =
  finish dType
    (flow_map set_returnErrorOnNull bump (range_keys 0 keys (init v))).
Proof.
  unfold GetPropertyWithType. simpl.
  by rewrite <- (range_keys_shift _ loop_body_shift_returnErrorOnNull).
Qed.

Lemma same_but_Idx_bump e : same_but_Idx e (bump e).
Proof. by destruct e. Qed.

Lemma same_but_Idx_refl e : same_but_Idx e e.
Proof. by destruct e. Qed.

Lemma type_switch_ok_set_returnErrorOnNull dType l :
  ok (type_switch dType (set_returnErrorOnNull l)) = ok (type_switch dType l).
Proof.
  unfold type_switch. repeat (destruct (String.eqb dType _); [done|]). done.
Qed.

(** With [returnErrorOnNull] set, the statements after the loop differ only
    on null. *)
Lemma after_loop_set_returnErrorOnNull dType l :
  after_loop dType (set_returnErrorOnNull l) =
  if is_nil (intf l) then Returns VNil (Some (NullError (skey l)))
  else after_loop dType l.
Proof.
  destruct (intf l) eqn:Hv; simpl.
  { rewrite after_loop_nil by done. done. }
  all: rewrite !after_loop_not_nil by (simpl; congruence).
  all: by rewrite type_switch_ok_set_returnErrorOnNull.
Qed.

(** C4: the call fails with "Options must be specified before the actual
    keys" at index [i] exactly when the segment at position [i] is an option,
    the segments before it resolve, and one of them is a key or an index.
    [ErrorOnNull] as first segment does not fail there: values other than
    null are returned as without it, errors stay the same up to their
    position, and a null that would be returned becomes a [NullError]. *)
Theorem options_before_keys v dType keys :
  (∀ i key,
     GetPropertyWithType v dType keys =
       Returns VNil (Some (KeyError options_msg i key)) ↔
     ∃ pre o post l,
       keys = pre ++ KOption o :: post ∧ i = Z.of_nat (length pre) ∧
       range_keys 0 pre (init v) = Continue l ∧
       existsb is_nav pre = true ∧ key = Sprint_hash_v (Itoa o)) ∧
  loop_body 0 (KOption ErrorOnNull) (init v) =
    Continue (set_returnErrorOnNull (init v)) ∧
  (∀ res, GetPropertyWithType v dType keys = Returns res None → res ≠ VNil →
     GetPropertyWithType v dType (KOption ErrorOnNull :: keys) =
     Returns res None) ∧
  (GetPropertyWithType v dType keys = Returns VNil None →
     GetPropertyWithType v dType (KOption ErrorOnNull :: keys) =
     Returns VNil (Some (NullError (last_segment_key keys)))) ∧
  (∀ e, GetPropertyWithType v dType keys = Returns VNil (Some e) →
     ∃ e', GetPropertyWithType v dType (KOption ErrorOnNull :: keys) =
           Returns VNil (Some e') ∧ same_but_Idx e e').
Proof.
  split; [|split; [done|]].
  - intros i key. unfold GetPropertyWithType. split.
    + destruct (range_keys 0 keys (init v)) as [l|e|] eqn:Hl; simpl.
      * unfold after_loop. repeat case_match; intros [= ]; done.
      * intros [= ->].
        apply range_keys_Return_inv in Hl
          as (pre & k & post & l' & -> & Hpre & Hk).
        destruct k as [n|s|o|r]; simpl in Hk; repeat case_match; try done.
        injection Hk as <- <-. exists pre, o, post, l'.
        split_and!; [done|lia|done| |done].
        pose proof (range_keys_expectOptions _ _ _ _ Hpre) as He.
        destruct (existsb is_nav pre); [done|]. simpl in He. congruence.
      * done.
    + intros (pre & o & post & l & -> & -> & Hpre & Hnav & ->).
      rewrite range_keys_app, Hpre. simpl.
      rewrite (range_keys_expectOptions _ _ _ _ Hpre), Hnav. done.
  - rewrite GetPropertyWithType_ErrorOnNull. unfold GetPropertyWithType.
    destruct (range_keys 0 keys (init v)) as [l|e|] eqn:Hl; simpl.
    + rewrite after_loop_set_returnErrorOnNull.
      rewrite (range_keys_skey _ _ _ Hl).
      destruct (intf l) eqn:Hv; simpl.
      { rewrite after_loop_nil by done. split_and!.
        - intros res Hr Hne. case_match; [done|]. by injection Hr as <-.
        - done.
        - intros e He. exists e. split; [|apply same_but_Idx_refl].
          case_match; [|done]. injection He as <-.
          by rewrite (range_keys_skey _ _ _ Hl). }
      all: split_and!; [done| |by eauto using same_but_Idx_refl].
      all: rewrite after_loop_not_nil by congruence.
      all: case_match; intros [= Hnil]; congruence.
    + repeat split; try done. intros e' [= <-].
      eauto using same_but_Idx_bump.
    + by apply range_keys_no_panic in Hl.
Qed.

(** C10: with an option other than [ErrorOnNull] put in front of the path,
    a value is returned as without it, every error keeps its kind, message
    and key, and an error of the traversal reports a position one larger,
    since positions count the option in front. *)
Theorem other_option_in_front v dType keys o :
  o ≠ ErrorOnNull →
  (∀ res, GetPropertyWithType v dType keys = Returns res None →
     GetPropertyWithType v dType (KOption o :: keys) = Returns res None) ∧
  (∀ res e, GetPropertyWithType v dType keys = Returns res (Some e) →
     ∃ e', GetPropertyWithType v dType (KOption o :: keys) =
           Returns res (Some e') ∧ same_but_Idx e e') ∧
  (∀ e, range_keys 0 keys (init v) = Return e →
     GetPropertyWithType v dType (KOption o :: keys) =
     Returns VNil (Some (bump e))).
Proof.
  intros Ho. rewrite GetPropertyWithType_other_option by done.
  unfold GetPropertyWithType.
  destruct (range_keys 0 keys (init v)) as [l|e|] eqn:Hl; simpl.
  - split_and!; [done| |done]. eauto using same_but_Idx_refl.
  - split_and!; [done| |by intros ? [= <-]].
    intros res e' [= <- <-]. eauto using same_but_Idx_bump.
  - by apply range_keys_no_panic in Hl.
Qed.

(** C10, as first stated: a missing property is reported at index 1, and
    at index 2 once an unrecognised option is put in front, so the result
    is not unchanged. *)
Lemma other_option_in_front_moves_Idx :
  2 ≠ ErrorOnNull ∧
  GetPropertyWithType testData "string"
    [KString "data"; KString "inexistentString"] =
  Returns VNil (Some (KeyError "Object property not found" 1 "inexistentString")) ∧
  GetPropertyWithType testData "string"
    [KOption 2; KString "data"; KString "inexistentString"] =
  Returns VNil (Some (KeyError "Object property not found" 2 "inexistentString")) ∧
  GetPropertyWithType testData "string"
    [KOption 2; KString "data"; KString "inexistentString"] ≠
  GetPropertyWithType testData "string"
    [KString "data"; KString "inexistentString"].
Proof. split_and!; [done|by vm_compute..|by vm_compute]. Qed.

(** ** strconv.ParseInt *)

(** The byte switch of [ParseUint] and the decimal digits agree: a digit has
    its value, and any other byte has no value or one that base 10
    rejects. *)
Lemma digit_of_byte_decimal c :
  match decimal_digit c, digit_of_byte (byte c) with
  | Some d, Some d' => (d =? d') && (0 <=? d) && (d <=? 9)
  | Some _, None => false
  | None, Some d' => 10 <=? d'
  | None, None => true
  end = true.
Proof. by destruct c as [[] [] [] [] [] [] [] []]. Qed.

Lemma decimal_value_ge s : ∀ acc u,
  0 ≤ acc → decimal_value acc s = Some u → acc ≤ u.
Proof.
  induction s as [|c s IH]; intros acc u Hacc; simpl.
  - intros [= <-]. lia.
  - pose proof (digit_of_byte_decimal c) as Hc.
    destruct (decimal_digit c) as [d|]; [|done].
    destruct (digit_of_byte (byte c)) as [d'|]; [|done].
    apply andb_true_iff in Hc as [[_ Hd0%Z.leb_le]%andb_true_iff _].
    intros Hu. apply IH in Hu; lia.
Qed.

(** The loop of [ParseUint] computes the number the digits denote, and
    stops with a range error as soon as it passes [maxUint64]. *)
Lemma ParseUint_loop_spec s : ∀ n,
  0 ≤ n ≤ maxUint64 →
  match decimal_value n s with
  | Some u =>
      if decide (u ≤ maxUint64) then ParseUint_loop s n = (u, None)
      else ParseUint_loop s n = (maxUint64, Some ErrRange)
  | None =>
      ParseUint_loop s n = (0, Some ErrSyntax) ∨
      ParseUint_loop s n = (maxUint64, Some ErrRange)
  end.
Proof.
  induction s as [|c s IH]; intros n Hn; simpl.
  - by rewrite decide_True by lia.
  - pose proof (digit_of_byte_decimal c) as Hc.
    destruct (decimal_digit c) as [d|], (digit_of_byte (byte c)) as [d'|];
      try done; [|rewrite Z.geb_leb, Hc; by left|by left].
    apply andb_true_iff in Hc as [[<-%Z.eqb_eq Hd0%Z.leb_le]%andb_true_iff Hd9%Z.leb_le].
    rewrite !Z.geb_leb, !Z.gtb_ltb.
    destruct (Z.leb_spec 10 d); [lia|].
    unfold maxUint64, to_uint64 in *.
    change ((2 ^ 64 - 1) / 10 + 1) with 1844674407370955162.
    destruct (Z.leb_spec 1844674407370955162 n) as [Hcut|Hcut].
    { destruct (decimal_value (10 * n + d) s) as [u|] eqn:Hu; [|by right].
      apply decimal_value_ge in Hu; [|lia].
      rewrite decide_False; [done|]. lia. }
    rewrite (Z.mod_small (n * 10)) by lia.
    destruct (decide (n * 10 + d < 2 ^ 64)) as [Hlt|Hge].
    + rewrite (Z.mod_small (n * 10 + d)) by lia.
      destruct (Z.ltb_spec (n * 10 + d) (n * 10)); [lia|].
      destruct (Z.ltb_spec (2 ^ 64 - 1) (n * 10 + d)); [lia|]. simpl.
      replace (10 * n + d) with (n * 10 + d) by lia.
      apply IH. lia.
    + replace ((n * 10 + d) mod 2 ^ 64) with (n * 10 + d - 2 ^ 64).
      2:{ apply Z.mod_unique_pos with 1; lia. }
      destruct (Z.ltb_spec (n * 10 + d - 2 ^ 64) (n * 10)); [|lia]. simpl.
      destruct (decimal_value (10 * n + d) s) as [u|] eqn:Hu; [|by right].
      apply decimal_value_ge in Hu; [|lia].
      rewrite decide_False; [done|]. lia.
Qed.

Lemma ParseUint_spec s :
  match unsigned_text s with
  | Some u =>
      0 ≤ u ∧
      if decide (u ≤ maxUint64) then ParseUint s = (u, None)
      else ParseUint s = (maxUint64, Some (NumError "ParseUint" s ErrRange))
  | None =>
      ParseUint s = (0, Some (NumError "ParseUint" s ErrSyntax)) ∨
      ParseUint s = (maxUint64, Some (NumError "ParseUint" s ErrRange))
  end.
Proof.
  destruct s as [|c s]; [by left|].
  unfold unsigned_text, ParseUint.
  assert (0 ≤ 0 ≤ maxUint64) as H0 by (unfold maxUint64; lia).
  pose proof (ParseUint_loop_spec (String c s) 0 H0) as H.
  destruct (decimal_value 0 (String c s)) as [u|] eqn:Hu.
  - split; [by apply decimal_value_ge in Hu|].
    destruct (decide (u ≤ maxUint64)); by rewrite H.
  - destruct H as [-> | ->]; eauto.
Qed.

(** A number within the range of [int64] is its own conversion. *)
Lemma to_int64_small z : - 2 ^ 63 ≤ z ≤ 2 ^ 63 - 1 → to_int64 z = z.
Proof. intros Hz. unfold to_int64. rewrite Z.mod_small; lia. Qed.

(** The sign is put back without loss, also at [-2^63], whose absolute
    value is not an [int64]. *)
Lemma to_int64_neg u :
  0 ≤ u ≤ 2 ^ 63 → to_int64 (- to_int64 u) = - u.
Proof.
  intros Hu. destruct (decide (u = 2 ^ 63)) as [->|Hne]; [done|].
  rewrite (to_int64_small u) by lia. apply to_int64_small. lia.
Qed.

Lemma integer_text_cons c rest :
  integer_text (String c rest) =
  if Ascii.eqb c "-" then Z.opp <$> unsigned_text rest
  else if Ascii.eqb c "+" then unsigned_text rest
  else unsigned_text (String c rest).
Proof. by destruct c as [[] [] [] [] [] [] [] []]. Qed.

(** [ParseInt] returns the number exactly for the decimal text of an
    [int64], and a [NumError] naming its input for every other string. *)
Lemma ParseInt_spec s :
  match int64_text s with
  | Some z => ParseInt s = (z, None)
  | None => ∃ r e, ParseInt s = (r, Some (NumError "ParseInt" s e))
  end.
Proof.
  destruct s as [|c rest]; [simpl; by eauto|].
  unfold int64_text. rewrite integer_text_cons. unfold ParseInt.
  set (s0 := String c rest).
  destruct (Ascii.eqb c "-") eqn:Hneg.
  - rewrite orb_true_r.
    pose proof (ParseUint_spec rest) as H.
    destruct (unsigned_text rest) as [u|]; simpl.
    + destruct H as [Hu H]. destruct (decide (u ≤ maxUint64)) as [Hm|Hm].
      * rewrite H. rewrite Z.gtb_ltb.
        destruct (Z.ltb_spec (2 ^ 63) u).
        { rewrite decide_False by lia. eauto. }
        rewrite decide_True by lia. by rewrite to_int64_neg by lia.
      * rewrite H. unfold maxUint64 in *. simpl.
        rewrite decide_False by lia. eauto.
    + destruct H as [-> | ->]; simpl; eauto.
  - set (s := if Ascii.eqb c "+" || false then rest else s0).
    assert ((if Ascii.eqb c "+" then unsigned_text rest else unsigned_text s0)
            = unsigned_text s) as -> by (unfold s; by destruct (Ascii.eqb c "+")).
    pose proof (ParseUint_spec s) as H.
    destruct (unsigned_text s) as [u|]; simpl.
    + destruct H as [Hu H]. destruct (decide (u ≤ maxUint64)) as [Hm|Hm].
      * rewrite H. rewrite Z.geb_leb.
        destruct (Z.leb_spec (2 ^ 63) u).
        { rewrite decide_False by lia. eauto. }
        rewrite decide_True by lia. by rewrite to_int64_small by lia.
      * rewrite H. unfold maxUint64 in *. simpl.
        rewrite decide_False by lia. eauto.
    + destruct H as [-> | ->]; simpl; eauto.
Qed.

(** A text with a character that is neither a digit nor a sign is not the
    decimal text of an integer. *)
Lemma decimal_value_other c s : ∀ acc,
  decimal_digit c = None → In c (list_ascii_of_string s) →
  decimal_value acc s = None.
Proof.
  induction s as [|c' s IH]; intros acc Hc; simpl; [done|].
  intros [->|Hin]; [by rewrite Hc|].
  destruct (decimal_digit c'); [by apply IH|done].
Qed.

Lemma int64_text_other c s :
  decimal_digit c = None → c ≠ "+"%char → c ≠ "-"%char →
  In c (list_ascii_of_string s) → int64_text s = None.
Proof.
  intros Hc Hplus Hminus Hin. unfold int64_text.
  destruct s as [|c0 rest]; [done|]. rewrite integer_text_cons.
  assert (∀ t, In c (list_ascii_of_string t) → unsigned_text t = None) as Hu.
  { intros [|c' t] Ht; [done|]. by apply decimal_value_other with c. }
  destruct (Ascii.eqb_spec c0 "-") as [->|_];
    [|destruct (Ascii.eqb_spec c0 "+") as [->|_]].
  - destruct Hin as [Heq|Hin]; [by destruct Hminus|]. by rewrite Hu.
  - destruct Hin as [Heq|Hin]; [by destruct Hplus|]. by rewrite Hu.
  - by rewrite Hu.
Qed.

(** [GetPropertyWithType] returns; it does not panic. *)
Lemma GetPropertyWithType_returns v dType keys :
  ∃ res err, GetPropertyWithType v dType keys = Returns res err.
Proof.
  unfold GetPropertyWithType.
  destruct (range_keys 0 keys (init v)) as [l|e|] eqn:Hl; simpl.
  - unfold after_loop. repeat case_match; eauto.
  - eauto.
  - by apply range_keys_no_panic in Hl.
Qed.

(** ** The typed accessors *)

(** C8: [GetInt] is [GetNumber] followed by the conversion to [int64].  It
    returns whenever called, and an error of [GetNumber] is returned as it
    is.  On a Number whose text is the decimal text of an [int64], an
    optional sign and then digits only, [GetInt] returns that integer; on a
    Number with any other text it returns a [*strconv.NumError], which is
    neither a [KeyError] nor a [NullError].  A text with a decimal point or
    with an exponent mark, whatever number it denotes, and the text of an
    integer outside of [-2^63 .. 2^63-1], are such other texts. *)
Theorem GetInt_decimal_text v keys :
  (∃ res err, GetInt v keys = Returns res err) ∧
  (∀ res e, GetNumber v keys = Returns res (Some e) →
     GetInt v keys = Returns 0 (Some e)) ∧
  (∀ n, GetPropertyWithType v "number" keys = Returns (VNumber n) None →
     GetNumber v keys = Returns n None ∧
     match int64_text n with
     | Some z => GetInt v keys = Returns z None
     | None =>
         ∃ r e, GetInt v keys = Returns r (Some (NumError "ParseInt" n e))
     end) ∧
  (∀ s c, In c (list_ascii_of_string s) →
     c = "."%char ∨ c = "e"%char ∨ c = "E"%char → int64_text s = None) ∧
  (∀ s z, integer_text s = Some z → ¬ (- 2 ^ 63 ≤ z ≤ 2 ^ 63 - 1) →
     int64_text s = None).
Proof.
  split_and!.
  - unfold GetInt, GetNumber.
    destruct (GetPropertyWithType_returns v "number" keys)
      as (res & [e|] & ->); simpl; [by eauto|].
    destruct (Int64 _). eauto.
  - intros res e H. unfold GetInt. by rewrite H.
  - intros n H. unfold GetInt, GetNumber. rewrite H. simpl.
    split; [done|]. unfold Int64.
    pose proof (ParseInt_spec n) as Hn.
    destruct (int64_text n) as [z|].
    + by rewrite Hn.
    + destruct Hn as (r & e & ->). eauto.
  - intros s c Hin Hc.
    apply (int64_text_other c s); [| | |exact Hin];
      destruct Hc as [ -> | [ -> | -> ] ]; done.
  - intros s z Hs Hz. unfold int64_text. rewrite Hs. by rewrite decide_False.
Qed.

(** C8, as first stated: the number [1e2] has no fractional part and does
    not overflow, it is the integer 100 and representable as an [int64];
    [GetNumber] returns it, and [GetInt] does not return 100 but the syntax
    error of [strconv.ParseInt]. *)
Lemma GetInt_exponent_not_converted :
  GetNumber exponentData [KString "n"] = Returns "1e2" None ∧
  has_fractional_part "1e2" = false ∧
  representable_int64 "1e2" = Some 100 ∧
  GetInt exponentData [KString "n"] =
    Returns 0 (Some (NumError "ParseInt" "1e2" ErrSyntax)) ∧
  GetInt exponentData [KString "n"] ≠ Returns 100 None.
Proof. split_and!; by vm_compute. Qed.

(** Where the path ends at null and [ErrorOnNull] is not among the keys,
    the lookup returns null under every type. *)
Lemma GetPropertyWithType_on_null v dType keys l :
  range_keys 0 keys (init v) = Continue l → intf l = VNil →
  KOption ErrorOnNull ∉ keys →
  GetPropertyWithType v dType keys = Returns VNil None.
Proof.
  intros Hl Hv Hopt. unfold GetPropertyWithType. rewrite Hl. simpl.
  rewrite after_loop_nil by done.
  rewrite (range_keys_returnErrorOnNull _ _ _ _ Hl).
  by rewrite bool_decide_false.
Qed.

(** C2: where the path ends at null and [ErrorOnNull] is not among the
    keys, [GetArray], [GetNumber], [GetString] and [GetBool] return their
    zero value with a nil error, and [GetInt] returns zero with the error of
    [strconv.ParseInt] on the empty string, not with a nil error. *)
Theorem accessors_on_null v keys l :
  range_keys 0 keys (init v) = Continue l → intf l = VNil →
  KOption ErrorOnNull ∉ keys →
  GetArray v keys = Returns None None ∧
  GetNumber v keys = Returns "" None ∧
  GetString v keys = Returns "" None ∧
  GetBool v keys = Returns false None ∧
  GetInt v keys = Returns 0 (Some (NumError "ParseInt" "" ErrSyntax)).
Proof.
  intros Hl Hv Hopt.
  assert (∀ dType, GetPropertyWithType v dType keys = Returns VNil None) as H.
  { intros d. by apply GetPropertyWithType_on_null with l. }
  unfold GetInt, GetArray, GetNumber, GetString, GetBool.
  by rewrite !H.
Qed.

(** On the same paths [GetFloat] returns what [strconv.ParseFloat] returns
    on the empty string. *)
Lemma GetFloat_on_null (float64 : Type)
    (ParseFloat : string → float64 * option error) (zero : float64) v keys l :
  range_keys 0 keys (init v) = Continue l → intf l = VNil →
  KOption ErrorOnNull ∉ keys →
  GetFloat float64 ParseFloat zero v keys =
  Returns (ParseFloat "").1 (ParseFloat "").2.
Proof.
  intros Hl Hv Hopt.
  unfold GetFloat, GetNumber.
  rewrite (GetPropertyWithType_on_null v "number" keys l Hl Hv Hopt). simpl. unfold Float64.
  by destruct (ParseFloat "").
Qed.

(** ** The examples of the package's tests *)

Example Itoa_examples :
  Itoa 0 = "0" ∧ Itoa 42 = "42" ∧ Itoa (-2) = "-2".
Proof. by vm_compute. Qed.

Example ExampleGetArray :
  GetArray testData [KString "array"] =
  Returns (Some [VNumber "1"; VNumber "2"; VNumber "3"]) None.
Proof. by vm_compute. Qed.

Example ExampleGetBool :
  GetBool testData [KString "data"; KString "subData"; KString "bool"] =
  Returns false None.
Proof. by vm_compute. Qed.

Example ExampleGetString :
  GetString testData
    [KString "data"; KString "subData"; KString "array"; KInt 0; KString "str"] =
  Returns "a string" None.
Proof. by vm_compute. Qed.

Example ExampleGetNumber :
  GetNumber testData [KString "data"; KString "int"] = Returns "123" None.
Proof. by vm_compute. Qed.

Example ExampleGetInt :
  GetInt testData [KString "array"; KInt 1] = Returns 2 None.
Proof. by vm_compute. Qed.

Example Int64_bounds :
  Int64 "9223372036854775807" = (9223372036854775807, None) ∧
  Int64 "-9223372036854775808" = (-9223372036854775808, None) ∧
  Int64 "9223372036854775808" =
    (9223372036854775807,
     Some (NumError "ParseInt" "9223372036854775808" ErrRange)) ∧
  Int64 "12.34" = (0, Some (NumError "ParseInt" "12.34" ErrSyntax)).
Proof. by vm_compute. Qed.

(** A number in exponent form is not converted, whatever its value. *)
Example Int64_exponent :
  int64_text "1e2" = None ∧
  Int64 "1e2" = (0, Some (NumError "ParseInt" "1e2" ErrSyntax)).
Proof. by vm_compute. Qed.

(** ** The theorems at concrete documents *)

(** On the path of the package's wrong-type tests, whose last segment has
    index 4. *)
Lemma type_mismatch_result_witness :
  GetPropertyWithType testData "number"
    [KString "data"; KString "subData"; KString "array"; KInt 0; KString "str"]
  = Returns VNil (Some (KeyError "Property is not of type number" 0 "str")).
Proof.
  eapply (type_mismatch_result testData "number"
            [KString "data"; KString "subData"; KString "array"; KInt 0;
             KString "str"]).
  - vm_compute. reflexivity.
  - right. left. reflexivity.
  - discriminate.
  - reflexivity.
Defined.

Lemma null_at_end_of_path_witness :
  GetPropertyWithType nullData "string"
    [KOption ErrorOnNull; KString "list"; KInt 1] =
  Returns VNil (Some (NullError "1")).
Proof.
  eapply (null_at_end_of_path nullData "string"
            [KOption ErrorOnNull; KString "list"; KInt 1]);
    vm_compute; reflexivity.
Defined.

Lemma array_index_bounds_witness :
  GetPropertyWithType testData "number" [KString "array"; KInt 3] =
  Returns VNil (Some (KeyError "Array index out of bounds" 1 "3")).
Proof.
  eapply (array_index_bounds testData "number" [KString "array"] 3 []).
  - vm_compute. reflexivity.
  - reflexivity.
  - right. vm_compute. discriminate.
Defined.

Lemma wrong_container_or_missing_key_witness :
  GetPropertyWithType testData "bool" [KString "data"; KInt 0] =
  Returns VNil (Some (KeyError "No array found" 1 "0")).
Proof.
  eapply (wrong_container_or_missing_key testData "bool" [KString "data"] []).
  - vm_compute. reflexivity.
  - intros a. vm_compute. discriminate.
Defined.

Lemma other_option_in_front_witness :
  GetPropertyWithType testData "string"
    [KOption 2; KString "data"; KString "inexistentString"] =
  Returns VNil (Some (KeyError "Object property not found" 2 "inexistentString")).
Proof.
  assert (2 ≠ ErrorOnNull) as Ho by discriminate.
  apply (proj2 (proj2 (other_option_in_front testData "string"
                         [KString "data"; KString "inexistentString"] 2 Ho))
           (KeyError "Object property not found" 1 "inexistentString")).
  vm_compute. reflexivity.
Defined.

Lemma options_before_keys_witness :
  GetPropertyWithType testData "bool" [KString "data"; KOption ErrorOnNull] =
  Returns VNil (Some (KeyError options_msg 1 "#v1")).
Proof.
  apply (options_before_keys testData "bool"
           [KString "data"; KOption ErrorOnNull]).
  eexists [KString "data"], ErrorOnNull, [], _.
  split_and!; reflexivity.
Defined.

Lemma accessors_on_null_witness :
  GetInt nullData [KString "n"] =
  Returns 0 (Some (NumError "ParseInt" "" ErrSyntax)).
Proof.
  eapply (accessors_on_null nullData [KString "n"]).
  - vm_compute. reflexivity.
  - reflexivity.
  - vm_compute. intros H. inversion H as [|? ? ? H']. inversion H'.
Defined.

(** * Further properties of the lookup functions *)

(** ** What a successful call guarantees *)

Lemma nil_or_not (v : value) : v = VNil ∨ v ≠ VNil.
Proof. destruct v; auto. Qed.

Lemma after_loop_success dType l res :
  after_loop dType l = Returns res None →
  res = intf l ∧
  (intf l = VNil → returnErrorOnNull l = false) ∧
  (intf l ≠ VNil → ok (type_switch dType l) = true).
Proof.
  destruct (nil_or_not (intf l)) as [Hv|Hv].
  - rewrite after_loop_nil by done.
    destruct (returnErrorOnNull l); [done|]. intros [= <-]. by rewrite Hv.
  - rewrite after_loop_not_nil by done.
    destruct (ok (type_switch dType l)); [|done]. by intros [= <-].
Qed.

(** A value returned under one of the four checked types is null or has the
    run-time tag that was asked for. *)
Lemma typed_result_has_type v dType keys res :
  checked_type dType →
  GetPropertyWithType v dType keys = Returns res None →
  res = VNil ∨ has_type dType res = true.
Proof.
  intros Hd. unfold GetPropertyWithType.
  destruct (range_keys 0 keys (init v)) as [l|e|]; simpl; [|done..].
  intros (-> & _ & Hok)%after_loop_success.
  destruct (nil_or_not (intf l)) as [Hv|Hv]; [by left|right].
  rewrite <- (type_switch_ok dType l) by done. auto.
Qed.

(** Whatever succeeds under a type succeeds with the same value without
    one. *)
Lemma typed_success_untyped v dType keys res :
  GetPropertyWithType v dType keys = Returns res None →
  GetProperty v keys = Returns res None.
Proof.
  unfold GetProperty, GetPropertyWithType.
  destruct (range_keys 0 keys (init v)) as [l|e|] eqn:Hl; simpl; [|done..].
  intros (-> & Hnil & _)%after_loop_success.
  destruct (nil_or_not (intf l)) as [Hv|Hv].
  - rewrite after_loop_nil, Hnil by done. by rewrite Hv.
  - rewrite after_loop_not_nil by done. change (type_switch "" l) with l.
    destruct (range_keys_outer _ _ _ _ Hl) as [_ ->]. done.
Qed.

(** An error of the untyped lookup is the error under every type. *)
Lemma untyped_error_typed v dType keys res e :
  GetProperty v keys = Returns res (Some e) →
  GetPropertyWithType v dType keys = Returns VNil (Some e).
Proof.
  unfold GetProperty, GetPropertyWithType.
  destruct (range_keys 0 keys (init v)) as [l|e'|] eqn:Hl; simpl;
    [|by intros [= _ ->]|done].
  destruct (nil_or_not (intf l)) as [Hv|Hv].
  - rewrite !after_loop_nil by done.
    destruct (returnErrorOnNull l); [by intros [= _ <-]|done].
  - rewrite after_loop_not_nil by done. change (type_switch "" l) with l.
    destruct (range_keys_outer _ _ _ _ Hl) as [_ ->]. done.
Qed.

(** X3: the type asked for only filters: it changes neither the value found nor
    the errors of the lookup itself. *)
Theorem dType_only_filters v dType keys :
  (∀ res, GetPropertyWithType v dType keys = Returns res None →
     GetProperty v keys = Returns res None) ∧
  (∀ res e, GetProperty v keys = Returns res (Some e) →
     GetPropertyWithType v dType keys = Returns VNil (Some e)).
Proof.
  split; [apply typed_success_untyped|apply untyped_error_typed].
Qed.

(** X4: the assertion at the end of [GetArray], [GetNumber], [GetString] and
    [GetBool] never fails on a value: what they return is what [GetProperty]
    finds, or the zero value where [GetProperty] finds null. *)
Theorem accessors_agree_with_GetProperty v keys :
  (∀ a, GetArray v keys = Returns a None →
     GetProperty v keys = Returns (VSlice a) None ∨
     a = None ∧ GetProperty v keys = Returns VNil None) ∧
  (∀ n, GetNumber v keys = Returns n None →
     GetProperty v keys = Returns (VNumber n) None ∨
     n = "" ∧ GetProperty v keys = Returns VNil None) ∧
  (∀ s, GetString v keys = Returns s None →
     GetProperty v keys = Returns (VString s) None ∨
     s = "" ∧ GetProperty v keys = Returns VNil None) ∧
  (∀ b, GetBool v keys = Returns b None →
     GetProperty v keys = Returns (VBool b) None ∨
     b = false ∧ GetProperty v keys = Returns VNil None).
Proof.
  unfold GetArray, GetNumber, GetString, GetBool.
  split_and!; intros x.
  all: match goal with
       | |- context [GetPropertyWithType _ ?T _] =>
           pose proof (typed_result_has_type v T keys) as Ht;
           pose proof (typed_success_untyped v T keys) as Hu;
           destruct (GetPropertyWithType v T keys) as [res [e|]|];
             simpl; try done
       end.
  all: intros [= <-]; rewrite (Hu res eq_refl).
  all: destruct (Ht res) as [->|Hres]; [unfold checked_type; tauto|done| |].
  all: try (right; done).
  all: destruct res; try done; by left.
Qed.

(** X2: with [ErrorOnNull] among the keys, a call that returns a value does not
    return null. *)
Theorem ErrorOnNull_result_not_nil v dType keys res :
  KOption ErrorOnNull ∈ keys →
  GetPropertyWithType v dType keys = Returns res None →
  res ≠ VNil.
Proof.
  intros Hin. unfold GetPropertyWithType.
  destruct (range_keys 0 keys (init v)) as [l|e|] eqn:Hl; simpl; [|done..].
  intros (-> & Hnil & _)%after_loop_success Hv.
  rewrite (range_keys_returnErrorOnNull _ _ _ _ Hl) in Hnil.
  rewrite bool_decide_true in Hnil by done. by specialize (Hnil Hv).
Qed.

(** ** The shape of the paths that resolve *)

(** Once a key or an index has been seen, only keys and indexes are
    accepted. *)
Lemma range_keys_after_nav keys : ∀ i l l',
  expectOptions l = false → range_keys i keys l = Continue l' →
  forallb is_nav keys = true.
Proof.
  induction keys as [|k keys IH]; intros i l l' He H; simpl in *; [done|].
  destruct (loop_body i k l) as [l1| |] eqn:Hk; try done.
  pose proof (range_keys_expectOptions [k] i l l1) as He1.
  simpl in He1. rewrite Hk in He1. specialize (He1 eq_refl).
  rewrite He in He1. apply loop_body_Continue_inv in Hk.
  destruct k as [n|s|o|r]; simpl; [by eauto..| |done].
  destruct Hk as [Hk _]. congruence.
Qed.

(** ** What a path denotes *)

Lemma loop_body_child i k l l' :
  loop_body i k l = Continue l' →
  if is_nav k then child (intf l) k = Some (intf l') else intf l' = intf l.
Proof.
  intros H%loop_body_Continue_inv. destruct k as [n|s|o|r]; simpl; [| | |done].
  - destruct H as (a & x & -> & _ & Hx & ->). done.
  - destruct H as (m & x & -> & Hx & ->). done.
  - destruct H as [_ ->]. by destruct (decide _).
Qed.

Lemma range_keys_lookup_path keys : ∀ i l l',
  range_keys i keys l = Continue l' →
  lookup_path (intf l) (List.filter is_nav keys) = Some (intf l').
Proof.
  induction keys as [|k keys IH]; intros i l l' H; simpl in H.
  - by injection H as <-.
  - destruct (loop_body i k l) as [l1| |] eqn:Hk; try done.
    apply loop_body_child in Hk. apply IH in H. simpl.
    destruct (is_nav k); simpl; [by rewrite Hk|by rewrite <- Hk].
Qed.

Lemma lookup_path_range_keys keys : ∀ i l x,
  forallb is_nav keys = true → lookup_path (intf l) keys = Some x →
  ∃ l', range_keys i keys l = Continue l' ∧ intf l' = x ∧
        returnErrorOnNull l' = returnErrorOnNull l ∧
        idx l' = idx l ∧ ok l' = ok l.
Proof.
  induction keys as [|k keys IH]; intros i l x Hnav H; simpl in *.
  - injection H as <-. by exists l.
  - apply andb_true_iff in Hnav as [Hk Hnav].
    destruct (child (intf l) k) as [y|] eqn:Hy; [|done].
    destruct k as [n|s|o|r]; try done; simpl in *.
    + destruct (intf l) eqn:Hv; try done.
      destruct ((n <? 0) || (n >=? len a)) eqn:Hb.
      { exfalso. destruct a as [elems|]; [|done]. simpl in *.
        case_decide; [|done]. apply lookup_lt_Some in Hy.
        apply orb_true_iff in Hb as [Hb|Hb]; [lia|].
        rewrite Z.geb_leb in Hb. lia. }
      rewrite Hy.
      destruct (IH (i + 1) (set_intf (set_key l (Itoa n)) y) x Hnav H)
        as (l' & -> & ? & ? & ? & ?).
      by exists l'.
    + destruct (intf l) eqn:Hv; try done. rewrite Hy.
      destruct (IH (i + 1) (set_intf (set_key l s) y) x Hnav H)
        as (l' & -> & ? & ? & ? & ?).
      by exists l'.
Qed.

(** The value a call returns is the one the keys and indexes of the path
    lead to, the options left aside; and [GetProperty] on a path of keys and
    indexes returns a value exactly when the path leads to one. *)
Lemma GetProperty_lookup_path v keys res :
  (∀ dType, GetPropertyWithType v dType keys = Returns res None →
     lookup_path v (List.filter is_nav keys) = Some res) ∧
  (forallb is_nav keys = true →
     (GetProperty v keys = Returns res None ↔ lookup_path v keys = Some res)).
Proof.
  assert (∀ dType, GetPropertyWithType v dType keys = Returns res None →
     lookup_path v (List.filter is_nav keys) = Some res) as H1.
  { intros dType. unfold GetPropertyWithType.
    destruct (range_keys 0 keys (init v)) as [l|e|] eqn:Hl; simpl; [|done..].
    intros (-> & _)%after_loop_success.
    by apply range_keys_lookup_path in Hl. }
  split; [done|]. intros Hnav. split.
  - intros H%H1. rewrite forallb_filter_id in H; done.
  - intros H. unfold GetProperty, GetPropertyWithType.
    destruct (lookup_path_range_keys keys 0 (init v) res Hnav H)
      as (l & -> & <- & Hr & _ & Hok).
    simpl. destruct (nil_or_not (intf l)) as [Hv|Hv].
    + rewrite after_loop_nil, Hr by done. by rewrite Hv.
    + rewrite after_loop_not_nil by done. change (type_switch "" l) with l.
      by rewrite Hok.
Qed.

(** ** The errors of the traversal *)

(** An iteration that returns reports its own position and the key of its
    own segment. *)
Lemma loop_body_Return_inv i k l m j s :
  loop_body i k l = Return (KeyError m j s) → j = i ∧ s = key_string k.
Proof.
  destruct k as [n|t|o|r]; simpl; repeat case_match; try done;
    by intros [= _ <- <-].
Qed.

Lemma loop_body_Return_KeyError i k l e :
  loop_body i k l = Return e → ∃ m j s, e = KeyError m j s.
Proof.
  destruct k as [n|t|o|r]; simpl; repeat case_match; try done;
    intros [= <-]; eauto.
Qed.

(** The messages of the loop are not the message of the type check. *)
Lemma loop_body_Return_msg i k l m j s dType :
  loop_body i k l = Return (KeyError m j s) →
  m ≠ "Property is not of type " +:+ dType.
Proof.
  destruct k as [n|t|o|r]; simpl; repeat case_match; try done;
    by intros [= <- _ _].
Qed.

(** X5: every [KeyError] other than the type mismatch points at a segment of
    the path: its [Idx] is the position of that segment and its [Key] is
    that segment's key. *)
Theorem KeyError_points_at_segment v dType keys res m i s :
  GetPropertyWithType v dType keys = Returns res (Some (KeyError m i s)) →
  m ≠ "Property is not of type " +:+ dType →
  0 ≤ i ∧ ∃ k, keys !! Z.to_nat i = Some k ∧ key_string k = s.
Proof.
  unfold GetPropertyWithType.
  destruct (range_keys 0 keys (init v)) as [l|e|] eqn:Hl; simpl; [| |done].
  - unfold after_loop. repeat case_match; try done.
    intros [= _ <- _ _] Hm. done.
  - intros [= _ ->] _.
    apply range_keys_Return_inv in Hl as (pre & k & post & l' & -> & _ & Hk).
    apply loop_body_Return_inv in Hk as [-> ->]. split; [lia|].
    exists k. split; [|done].
    replace (Z.to_nat (0 + Z.of_nat (length pre))) with (length pre) by lia.
    apply list_lookup_middle. done.
Qed.

(** X6: an error of the traversal is final: however the path goes on, and
    whatever type is asked for, the call fails with the same error. *)
Theorem KeyError_stable_under_extension v dType pre post res m i s :
  GetProperty v pre = Returns res (Some (KeyError m i s)) →
  GetPropertyWithType v dType (pre ++ post) =
  Returns VNil (Some (KeyError m i s)).
Proof.
  unfold GetProperty, GetPropertyWithType. rewrite range_keys_app.
  destruct (range_keys 0 pre (init v)) as [l|e|] eqn:Hl; simpl; [| |done].
  - unfold after_loop. change (type_switch "" l) with l.
    destruct (range_keys_outer _ _ _ _ Hl) as [_ ->]. simpl.
    by repeat case_match.
  - by intros [= _ ->].
Qed.

(** ** Lookup in the result of a lookup *)

Lemma after_loop_same_at_end dType l l' :
  same_at_end l l' → after_loop dType l = after_loop dType l'.
Proof.
  destruct l, l'. unfold same_at_end. simpl.
  intros (-> & -> & -> & -> & ->).
  unfold after_loop, type_switch.
  repeat (destruct (String.eqb dType _); [done|]). done.
Qed.

Lemma same_outcome_but_Idx_refl {A : Type} (r : outcome A) :
  same_outcome_but_Idx r r.
Proof. destruct r as [x [e|]|]; simpl; auto using same_but_Idx_refl. Qed.

(** On the same value, a key or index segment does the same at any position
    and after any key. *)
Lemma loop_body_nav_same i j k l l' :
  is_nav k = true →
  intf l = intf l' → idx l = idx l' → ok l = ok l' →
  returnErrorOnNull l = returnErrorOnNull l' →
  match loop_body i k l, loop_body j k l' with
  | Continue a, Continue b => same_at_end a b
  | Return e, Return e' => same_but_Idx e e'
  | _, _ => False
  end.
Proof.
  destruct l as [v ? ? ? ? ?], l' as [v' ? ? ? ? ?]. simpl.
  intros Hk -> -> -> ->. unfold same_at_end.
  destruct k as [n|s|o|r]; try done; simpl.
  - destruct v' as [| | | |a| |]; try done.
    destruct ((n <? 0) || (n >=? len a)) eqn:Hb; [done|].
    by destruct (slice_index_in_bounds _ _ Hb) as [x ->].
  - destruct v' as [| | | | |m|]; try done. by destruct (m !! s).
Qed.

Lemma range_keys_nav_same keys : ∀ i j l l',
  forallb is_nav keys = true → same_at_end l l' →
  match range_keys i keys l, range_keys j keys l' with
  | Continue a, Continue b => same_at_end a b
  | Return e, Return e' => same_but_Idx e e'
  | _, _ => False
  end.
Proof.
  induction keys as [|k keys IH]; intros i j l l' Hnav Hl; simpl; [done|].
  simpl in Hnav. apply andb_true_iff in Hnav as [Hk Hnav].
  destruct Hl as (Hv & _ & Hi & Ho & Hr).
  pose proof (loop_body_nav_same i j k l l' Hk Hv Hi Ho Hr) as H.
  destruct (loop_body i k l), (loop_body j k l'); try done.
  by apply IH.
Qed.

(** An accessor built on a lookup inherits what holds of the lookup. *)
Lemma on_success_same_but_Idx {A B : Type} (r r' : outcome A) (zero : B) rest :
  same_outcome_but_Idx r r' →
  same_outcome_but_Idx (on_success r zero rest) (on_success r' zero rest).
Proof.
  destruct r as [x [e|]|], r' as [x' [e'|]|]; simpl; try done.
  - by intros [_ ?].
  - intros <-. apply same_outcome_but_Idx_refl.
Qed.

Lemma GetPropertyWithType_composes v x dType pre post :
  forallb is_nav pre = true → forallb is_nav post = true → post ≠ [] →
  GetProperty v pre = Returns x None →
  same_outcome_but_Idx (GetPropertyWithType x dType post)
    (GetPropertyWithType v dType (pre ++ post)).
Proof.
  intros Hpre Hpost Hne Hx.
  assert (lookup_path v pre = Some x) as Hp.
  { unfold GetProperty, GetPropertyWithType in Hx.
    destruct (range_keys 0 pre (init v)) as [l|e|] eqn:Hl; simpl in Hx;
      [|done..].
    apply after_loop_success in Hx as (-> & _).
    apply range_keys_lookup_path in Hl. by rewrite forallb_filter_id in Hl. }
  destruct (lookup_path_range_keys pre 0 (init v) x Hpre Hp)
    as (l & Hl & Hv & Hr & Hi & Ho).
  unfold GetPropertyWithType. rewrite range_keys_app, Hl.
  destruct post as [|k post]; [done|]. simpl in *.
  apply andb_true_iff in Hpost as [Hk Hpost].
  pose proof (loop_body_nav_same 0 (0 + Z.of_nat (length pre)) k (init x) l
                Hk (eq_sym Hv) (eq_sym Hi) (eq_sym Ho) (eq_sym Hr)) as H.
  destruct (loop_body 0 k (init x)) as [a| |],
    (loop_body _ k l) as [b| |]; try done.
  pose proof (range_keys_nav_same post (0 + 1)
                (0 + Z.of_nat (length pre) + 1) a b Hpost H) as H'.
  destruct (range_keys (0 + 1) post a) as [a'| |],
    (range_keys _ post b) as [b'| |]; try done.
  simpl. rewrite (after_loop_same_at_end dType a' b' H').
  apply same_outcome_but_Idx_refl.
Qed.

(** X7: when [GetProperty] on a path of keys and indexes returns a value, a
    lookup in that value returns what the lookup on the joined path returns
    from the document: the same value, or the same error up to its
    position.  So it is for every typed accessor. *)
Theorem lookup_in_result v x pre post :
  forallb is_nav pre = true → forallb is_nav post = true → post ≠ [] →
  GetProperty v pre = Returns x None →
  (∀ dType, same_outcome_but_Idx (GetPropertyWithType x dType post)
              (GetPropertyWithType v dType (pre ++ post))) ∧
  same_outcome_but_Idx (GetArray x post) (GetArray v (pre ++ post)) ∧
  same_outcome_but_Idx (GetNumber x post) (GetNumber v (pre ++ post)) ∧
  same_outcome_but_Idx (GetInt x post) (GetInt v (pre ++ post)) ∧
  same_outcome_but_Idx (GetString x post) (GetString v (pre ++ post)) ∧
  same_outcome_but_Idx (GetBool x post) (GetBool v (pre ++ post)).
Proof.
  intros Hpre Hpost Hne Hx.
  pose proof (λ dType, GetPropertyWithType_composes v x dType pre post
                         Hpre Hpost Hne Hx) as H.
  unfold GetInt, GetArray, GetNumber, GetString, GetBool.
  split_and!; auto using on_success_same_but_Idx.
Qed.

(** * The earlier version *)

(** ** Its loop *)

Lemma old_range_keys_app i pre post v s :
  Old.range_keys i (pre ++ post) v s =
  match Old.range_keys i pre v s with
  | Old.Next x t => Old.range_keys (i + Z.of_nat (length pre)) post x t
  | r => r
  end.
Proof.
  revert i v s. induction pre as [|k pre IH]; intros i v s; simpl.
  - by rewrite Z.add_0_r.
  - destruct (Old.loop_body i k v s); [|done..].
    rewrite IH. destruct (Old.range_keys _ pre _ _); [|done..].
    f_equal. lia.
Qed.

(** An iteration goes on exactly on a key or index that selects a member. *)
Lemma old_loop_body_Next i k v s x t :
  Old.loop_body i k v s = Old.Next x t ↔
  is_nav k = true ∧ child v k = Some x ∧ t = key_string k.
Proof.
  destruct k as [n|u|o|r]; simpl.
  - destruct v; try (split; [done|by intros (_ & ? & _)]).
    destruct (slice_index a n); split; try done.
    + by intros [= -> <-].
    + by intros (_ & [= ->] & ->).
    + by intros (_ & ? & _).
  - destruct v; try (split; [done|by intros (_ & ? & _)]).
    destruct (m !! u); split; try done.
    + by intros [= -> <-].
    + by intros (_ & [= ->] & ->).
    + by intros (_ & ? & _).
  - split; [done|by intros (? & _)].
  - split; [done|by intros (? & _)].
Qed.

(** The loop runs to its end exactly on a path of keys and indexes that
    leads to a value. *)
Lemma old_range_keys_Next keys : ∀ i v s x t,
  Old.range_keys i keys v s = Old.Next x t ↔
  forallb is_nav keys = true ∧ lookup_path v keys = Some x ∧
  t = match last keys with Some k => key_string k | None => s end.
Proof.
  induction keys as [|k keys IH]; intros i v s x t; simpl.
  - split; [by intros [= -> ->]|by intros (_ & [= ->] & ->)].
  - destruct (Old.loop_body i k v s) as [y u| |] eqn:Hk.
    + apply old_loop_body_Next in Hk as (Hnav & Hy & ->).
      rewrite IH, Hnav, Hy. simpl.
      destruct keys as [|k' keys']; [reflexivity|].
      rewrite (last_cons_cons k k' keys').
      destruct (last (k' :: keys')) eqn:Hl; [done|].
      by apply last_None in Hl.
    + split; [done|]. intros (Hnav & Hx & _).
      apply andb_true_iff in Hnav as [Hnav _].
      destruct (child v k) as [y|] eqn:Hy; [|done].
      assert (Old.loop_body i k v s = Old.Next y (key_string k)) as Hk'
        by (by apply old_loop_body_Next).
      congruence.
    + split; [done|]. intros (Hnav & Hx & _).
      apply andb_true_iff in Hnav as [Hnav _].
      destruct (child v k) as [y|] eqn:Hy; [|done].
      assert (Old.loop_body i k v s = Old.Next y (key_string k)) as Hk'
        by (by apply old_loop_body_Next).
      congruence.
Qed.

Lemma last_segment_key_nav keys :
  forallb is_nav keys = true →
  last_segment_key keys =
  match last keys with Some k => key_string k | None => "" end.
Proof.
  intros Hnav. unfold last_segment_key.
  destruct (last keys) as [k|] eqn:Hk; [|done].
  apply last_Some in Hk as [pre ->].
  rewrite forallb_app in Hnav. apply andb_true_iff in Hnav as [_ Hnav].
  simpl in Hnav. by destruct k.
Qed.

(** The one panic of the loop is the indexing of a slice out of range. *)
Lemma old_range_keys_Crash keys : ∀ i v s,
  Old.range_keys i keys v s = Old.Crash ↔
  ∃ pre n post a,
    keys = pre ++ KInt n :: post ∧ forallb is_nav pre = true ∧
    lookup_path v pre = Some (VSlice a) ∧ (n < 0 ∨ len a ≤ n).
Proof.
  assert (∀ a n, slice_index a n = None ↔ n < 0 ∨ len a ≤ n) as Hidx.
  { intros [elems|] n; simpl; [|split; [lia|done]].
    case_decide; [|split; [lia|done]].
    rewrite lookup_ge_None. lia. }
  induction keys as [|k keys IH]; intros i v s; simpl.
  - split; [done|]. intros (pre & n & post & a & H & _).
    by destruct pre.
  - destruct (Old.loop_body i k v s) as [y u| |] eqn:Hk.
    + apply old_loop_body_Next in Hk as (Hnav & Hy & ->). rewrite IH. split.
      * intros (pre & n & post & a & -> & Hpre & Hp & Hn).
        exists (k :: pre), n, post, a. simpl. by rewrite Hnav, Hy.
      * intros (pre & n & post & a & Heq & Hpre & Hp & Hn).
        destruct pre as [|k' pre]; simpl in *.
        { injection Heq as -> ->. simpl in Hy. injection Hp as ->.
          apply Hidx in Hn. congruence. }
        injection Heq as <- ->. rewrite Hy in Hp.
        apply andb_true_iff in Hpre as [_ Hpre]. by exists pre, n, post, a.
    + split; [done|]. intros (pre & n & post & a & Heq & Hpre & Hp & Hn).
      destruct pre as [|k' pre]; simpl in *.
      * injection Heq as -> ->. injection Hp as ->. simpl in Hk.
        apply Hidx in Hn. by rewrite Hn in Hk.
      * injection Heq as <- ->. apply andb_true_iff in Hpre as [Hk' _].
        destruct (child v k) as [y|] eqn:Hy; [|done].
        assert (Old.loop_body i k v s = Old.Next y (key_string k)) as Hk''
          by (by apply old_loop_body_Next).
        congruence.
    + split; [|done]. intros _.
      destruct k as [n|u|o|r]; simpl in Hk; [| |done..].
      * destruct v; try done.
        destruct (slice_index a n) eqn:Hn; [done|].
        exists [], n, keys, a. split_and!; try done. by apply Hidx.
      * destruct v; try done. by destruct (m !! u).
Qed.

(** X8: the earlier [GetProperty] panics exactly when, after keys and indexes
    that lead to a slice, the next segment is an index that is negative or
    not below the length of the slice. *)
Theorem old_GetProperty_panics v keys :
  Old.GetProperty v keys = Old.Panicked ↔
  ∃ pre n post a,
    keys = pre ++ KInt n :: post ∧ forallb is_nav pre = true ∧
    lookup_path v pre = Some (VSlice a) ∧ (n < 0 ∨ len a ≤ n).
Proof.
  rewrite <- (old_range_keys_Crash keys 0 v ""). unfold Old.GetProperty.
  by destruct (Old.range_keys 0 keys v "").
Qed.

(** X9: on a segment that is neither a string nor an int, after keys and
    indexes that lead to a value, the earlier [GetProperty] stops and
    returns nil with a nil error, whatever the segments after it. *)
Theorem old_GetProperty_other_key v pre k post x :
  forallb is_nav pre = true → lookup_path v pre = Some x →
  is_nav k = false →
  Old.GetProperty v (pre ++ k :: post) =
  Old.Returned (VNil, last_segment_key pre) None.
Proof.
  intros Hpre Hx Hk. unfold Old.GetProperty. rewrite old_range_keys_app.
  destruct (Old.range_keys 0 pre v "") as [y t| |] eqn:Hp.
  - apply old_range_keys_Next in Hp as (_ & _ & ->).
    rewrite last_segment_key_nav by done. simpl.
    by destruct k.
  - assert (Old.range_keys 0 pre v "" =
            Old.Next x (match last pre with
                        | Some k => key_string k | None => "" end)) as H
      by (by apply old_range_keys_Next).
    congruence.
  - assert (Old.range_keys 0 pre v "" =
            Old.Next x (match last pre with
                        | Some k => key_string k | None => "" end)) as H
      by (by apply old_range_keys_Next).
    congruence.
Qed.

(** ** The two versions side by side *)

(** On a key or index segment the two loop bodies do the same, but for the
    index out of range, where the earlier one panics. *)
Lemma old_new_loop_body i k l :
  is_nav k = true →
  match loop_body i k l with
  | Continue a =>
      Old.loop_body i k (intf l) (skey l) = Old.Next (intf a) (skey a)
  | Return (KeyError m j s) =>
      if String.eqb m "Array index out of bounds"
      then Old.loop_body i k (intf l) (skey l) = Old.Crash
      else Old.loop_body i k (intf l) (skey l) =
           Old.Stop s (Some (Old.Errorf (old_message m j s)))
  | _ => False
  end.
Proof.
  destruct l as [v ? ? ? ? ?]. destruct k as [n|u|o|r]; try done; simpl.
  - intros _. destruct v as [| | | |a| |]; try done.
    destruct ((n <? 0) || (n >=? len a)) eqn:Hb; simpl.
    + destruct a as [elems|]; simpl in *; [|done].
      case_decide; [|done].
      rewrite (proj2 (lookup_ge_None elems (Z.to_nat n))); [done|].
      apply orb_true_iff in Hb as [Hb|Hb]; [lia|].
      rewrite Z.geb_leb in Hb. lia.
    + by destruct (slice_index_in_bounds _ _ Hb) as [x ->].
  - intros _. destruct v as [| | | | |m|]; try done. by destruct (m !! u).
Qed.

Lemma old_new_range_keys keys : ∀ i l,
  forallb is_nav keys = true →
  match range_keys i keys l with
  | Continue a =>
      Old.range_keys i keys (intf l) (skey l) = Old.Next (intf a) (skey a)
  | Return (KeyError m j s) =>
      if String.eqb m "Array index out of bounds"
      then Old.range_keys i keys (intf l) (skey l) = Old.Crash
      else Old.range_keys i keys (intf l) (skey l) =
           Old.Stop s (Some (Old.Errorf (old_message m j s)))
  | _ => False
  end.
Proof.
  induction keys as [|k keys IH]; intros i l Hnav; simpl in *; [done|].
  apply andb_true_iff in Hnav as [Hk Hnav].
  pose proof (old_new_loop_body i k l Hk) as H.
  destruct (loop_body i k l) as [a|[m j s| |]|]; try done.
  - rewrite H. by apply IH.
  - by destruct (String.eqb m _); rewrite H.
Qed.

Lemma nav_no_option keys o :
  forallb is_nav keys = true → KOption o ∉ keys.
Proof.
  intros Hnav Hin. rewrite forallb_forall in Hnav.
  apply list_elem_of_In in Hin. by apply Hnav in Hin.
Qed.

(** X10: on a path of keys and indexes the two versions of [GetProperty] agree:
    where the later one returns a value, the earlier one returns it with the
    key of the last segment; where the later one reports an index out of
    bounds, the earlier one panics; and every other [KeyError] of the
    later one is, in the earlier one, the error whose text is made of the
    same message, position and key. *)
Theorem old_and_new_GetProperty v keys :
  forallb is_nav keys = true →
  match GetProperty v keys with
  | Returns x None =>
      Old.GetProperty v keys = Old.Returned (x, last_segment_key keys) None
  | Returns _ (Some (KeyError m i s)) =>
      if String.eqb m "Array index out of bounds"
      then Old.GetProperty v keys = Old.Panicked
      else Old.GetProperty v keys =
           Old.Returned (VNil, s) (Some (Old.Errorf (old_message m i s)))
  | _ => False
  end.
Proof.
  intros Hnav. pose proof (old_new_range_keys keys 0 (init v) Hnav) as H.
  unfold GetProperty, GetPropertyWithType, Old.GetProperty.
  destruct (range_keys 0 keys (init v)) as [a|[m j s| |]|] eqn:Ha;
    simpl in *; try done.
  - rewrite H. unfold after_loop. change (type_switch "" a) with a.
    destruct (range_keys_outer _ _ _ _ Ha) as [_ ->].
    rewrite (range_keys_returnErrorOnNull _ _ _ _ Ha).
    rewrite bool_decide_false by (by apply nav_no_option).
    rewrite (range_keys_skey _ _ _ Ha). simpl. rewrite andb_false_r. done.
  - by destruct (String.eqb m _); rewrite H.
Qed.

(** A value that the earlier [GetProperty] returns and that has the type
    asked for is what the later lookup returns under that type. *)
Lemma old_success_new v keys x s dType :
  Old.GetProperty v keys = Old.Returned (x, s) None →
  checked_type dType → has_type dType x = true →
  GetPropertyWithType v dType keys = Returns x None.
Proof.
  unfold Old.GetProperty. intros H Hd Ht.
  destruct (Old.range_keys 0 keys v "") as [y t|t e|] eqn:Hr; [| |done].
  - injection H as -> ->.
    apply old_range_keys_Next in Hr as (Hnav & Hx & _).
    destruct (lookup_path_range_keys keys 0 (init v) x Hnav Hx)
      as (l & Hl & Hv & _).
    unfold GetPropertyWithType. rewrite Hl. simpl.
    rewrite after_loop_not_nil by (rewrite Hv; by destruct x).
    by rewrite type_switch_ok, Hv, Ht.
  - injection H as <- _ _. by destruct dType.
Qed.

Lemma old_assert_type_success {A : Type} r (zero : A) T cast res :
  Old.assert_type r zero T cast = Old.Returned res None →
  ∃ x s, r = Old.Returned (x, s) None ∧ cast x = Some res.
Proof.
  destruct r as [[x s] [e|]|]; simpl; try done.
  destruct (cast x) eqn:Hc; [|done]. intros [= ->]. eauto.
Qed.

(** X11: every lookup that returns a value with the typed accessors of the
    earlier version returns the same value with those of the later
    version. *)
Theorem old_accessors_carry_over v keys :
  (∀ a, Old.GetArray v keys = Old.Returned a None →
     GetArray v keys = Returns a None) ∧
  (∀ n, Old.GetNumber v keys = Old.Returned n None →
     GetNumber v keys = Returns n None) ∧
  (∀ s, Old.GetString v keys = Old.Returned s None →
     GetString v keys = Returns s None) ∧
  (∀ b, Old.GetBool v keys = Old.Returned b None →
     GetBool v keys = Returns b None) ∧
  (∀ z, Old.GetInt v keys = Old.Returned z None →
     GetInt v keys = Returns z None).
Proof.
  assert (∀ n, Old.GetNumber v keys = Old.Returned n None →
               GetNumber v keys = Returns n None) as Hnum.
  { intros n (x & s & Hx & Hc)%old_assert_type_success.
    destruct x; try done. injection Hc as ->. unfold GetNumber.
    rewrite (old_success_new v keys _ s "number" Hx);
      [done|unfold checked_type; tauto|done]. }
  split_and!; [| done | | |].
  - intros a (x & s & Hx & Hc)%old_assert_type_success.
    destruct x; try done. injection Hc as ->. unfold GetArray.
    rewrite (old_success_new v keys _ s "array" Hx);
      [done|unfold checked_type; tauto|done].
  - intros t (x & s & Hx & Hc)%old_assert_type_success.
    destruct x; try done. injection Hc as ->. unfold GetString.
    rewrite (old_success_new v keys _ s "string" Hx);
      [done|unfold checked_type; tauto|done].
  - intros b (x & s & Hx & Hc)%old_assert_type_success.
    destruct x; try done. injection Hc as ->. unfold GetBool.
    rewrite (old_success_new v keys _ s "bool" Hx);
      [done|unfold checked_type; tauto|done].
  - intros z. unfold Old.GetInt, GetInt.
    destruct (Old.GetNumber v keys) as [n [e|]|] eqn:Hn; try done.
    rewrite (Hnum n eq_refl). simpl.
    destruct (Int64 n) as [r [e|]]; simpl; [done|]. by intros [= ->].
Qed.

(** X12: the earlier version has no exemption for null: where the path leads to
    null, [GetProperty] returns it, and every typed accessor fails with an
    error that names the key of the last segment and the type. *)
Theorem old_accessors_on_null v keys :
  forallb is_nav keys = true → lookup_path v keys = Some VNil →
  let s := last_segment_key keys in
  Old.GetProperty v keys = Old.Returned (VNil, s) None ∧
  Old.GetArray v keys = Old.Returned None (Some (Old.not_of_type s "array")) ∧
  Old.GetNumber v keys = Old.Returned "" (Some (Old.not_of_type s "Number")) ∧
  Old.GetString v keys = Old.Returned "" (Some (Old.not_of_type s "string")) ∧
  Old.GetBool v keys = Old.Returned false (Some (Old.not_of_type s "bool")) ∧
  Old.GetInt v keys = Old.Returned 0 (Some (Old.not_of_type s "Number")).
Proof.
  intros Hnav Hx s.
  assert (Old.GetProperty v keys = Old.Returned (VNil, s) None) as H.
  { unfold Old.GetProperty, s.
    rewrite (proj2 (old_range_keys_Next keys 0 v "" VNil _)
               (conj Hnav (conj Hx eq_refl))).
    by rewrite last_segment_key_nav. }
  unfold Old.GetInt, Old.GetArray, Old.GetNumber, Old.GetString, Old.GetBool.
  by rewrite !H.
Qed.

(** ** When a call returns a value *)

Lemma range_keys_shape keys : ∀ i l l',
  range_keys i keys l = Continue l' →
  ∃ opts navs,
    keys = opts ++ navs ∧
    Forall (λ k, ∃ o, k = KOption o) opts ∧
    forallb is_nav navs = true.
Proof.
  induction keys as [|k keys IH]; intros i l0 l H; simpl in H.
  { by exists [], []. }
  destruct (loop_body i k l0) as [l1| |] eqn:Hk; try done.
  pose proof Hk as Hk'. apply loop_body_Continue_inv in Hk'.
  destruct k as [n|s|o|r]; [| | |done].
  - exists [], (KInt n :: keys). split_and!; [done..|]. simpl.
    destruct Hk' as (a & x & _ & _ & _ & ->).
    by eapply range_keys_after_nav; [|exact H].
  - exists [], (KString s :: keys). split_and!; [done..|]. simpl.
    destruct Hk' as (m & x & _ & _ & ->).
    by eapply range_keys_after_nav; [|exact H].
  - destruct (IH _ _ _ H) as (opts & navs & -> & Ho & Hn).
    exists (KOption o :: opts), navs. split_and!; [done| |done].
    constructor; eauto.
Qed.

(** Options in front are all accepted; they leave the value and the key as
    they are. *)
Lemma range_keys_options opts : ∀ i l,
  Forall (λ k, ∃ o, k = KOption o) opts → expectOptions l = true →
  ∃ l', range_keys i opts l = Continue l' ∧
        intf l' = intf l ∧ skey l' = skey l ∧ idx l' = idx l ∧
        ok l' = ok l ∧ expectOptions l' = true.
Proof.
  induction opts as [|k opts IH]; intros i l Ho He; simpl.
  { by exists l. }
  inversion Ho as [|? ? [o ->] Ho']; subst. simpl. rewrite He.
  destruct (IH (i + 1)
              (if decide (o = ErrorOnNull) then set_returnErrorOnNull l else l)
              Ho') as (l' & -> & ? & ? & ? & ? & ?).
  { by destruct (decide _). }
  exists l'. by destruct (decide (o = ErrorOnNull)).
Qed.

Lemma filter_options_navs opts navs :
  Forall (λ k, ∃ o, k = KOption o) opts → forallb is_nav navs = true →
  List.filter is_nav (opts ++ navs) = navs.
Proof.
  intros Ho Hn. rewrite List.filter_app, (forallb_filter_id _ _ Hn).
  induction Ho as [|k opts [o ->] _ IH]; [done|]. simpl. apply IH.
Qed.

(** X1: [GetPropertyWithType] returns a value exactly when the path is made of
    options followed by keys and indexes, these lead to the value, a null
    comes without [ErrorOnNull] among the options, and a value other than
    null has the type asked for, if one of the four was asked for. *)
Theorem GetPropertyWithType_returns_iff v dType keys res :
  GetPropertyWithType v dType keys = Returns res None ↔
  ∃ opts navs,
    keys = opts ++ navs ∧
    Forall (λ k, ∃ o, k = KOption o) opts ∧
    forallb is_nav navs = true ∧
    lookup_path v navs = Some res ∧
    (res = VNil → KOption ErrorOnNull ∉ opts) ∧
    (res ≠ VNil → checked_type dType → has_type dType res = true).
Proof.
  unfold GetPropertyWithType. split.
  - destruct (range_keys 0 keys (init v)) as [l|e|] eqn:Hl; simpl; [|done..].
    intros (-> & Hnil & Hok)%after_loop_success.
    destruct (range_keys_shape _ _ _ _ Hl) as (opts & navs & -> & Ho & Hn).
    exists opts, navs. split_and!; try done.
    + apply range_keys_lookup_path in Hl.
      by rewrite filter_options_navs in Hl.
    + intros Hv Hin. specialize (Hnil Hv).
      rewrite (range_keys_returnErrorOnNull _ _ _ _ Hl) in Hnil.
      rewrite bool_decide_true in Hnil; [done|].
      apply elem_of_app. by left.
    + intros Hv Hd. rewrite <- (type_switch_ok dType l) by done. auto.
  - intros (opts & navs & -> & Ho & Hn & Hx & Hnil & Hty).
    rewrite range_keys_app.
    destruct (range_keys_options opts 0 (init v) Ho eq_refl)
      as (l1 & Hl1 & Hv1 & _ & Hi1 & Hok1 & _).
    rewrite Hl1. simpl in Hv1. rewrite <- Hv1 in Hx.
    destruct (lookup_path_range_keys navs (0 + Z.of_nat (length opts)) l1 res
                Hn Hx) as (l & Hl & Hv & Hr & Hi & Hok).
    rewrite Hl. simpl.
    destruct (nil_or_not res) as [->|Hres].
    + rewrite after_loop_nil by done.
      rewrite Hr, (range_keys_returnErrorOnNull _ _ _ _ Hl1).
      rewrite bool_decide_false by auto. done.
    + rewrite after_loop_not_nil by congruence. rewrite Hv.
      destruct (ok (type_switch dType l)) eqn:Hty'; [done|]. exfalso.
      assert (Decision (checked_type dType)) as [Hd|Hd]
        by (unfold checked_type; apply _).
      * rewrite type_switch_ok, Hv, (Hty Hres Hd) in Hty' by done. done.
      * rewrite type_switch_unchecked in Hty' by done.
        rewrite Hok, Hok1 in Hty'. done.
Qed.

(** The earlier [GetFloat] carries over like the other accessors, whatever
    the conversion to a float is. *)
Lemma old_GetFloat_carries_over (float64 : Type)
    (ParseFloat : string → float64 * option error) (zero : float64)
    v keys f :
  Old.GetFloat float64 ParseFloat zero v keys = Old.Returned f None →
  GetFloat float64 ParseFloat zero v keys = Returns f None.
Proof.
  unfold Old.GetFloat, GetFloat.
  destruct (Old.GetNumber v keys) as [n [e|]|] eqn:Hn; try done.
  apply old_assert_type_success in Hn as (x & s & Hx & Hc).
  destruct x; try done. injection Hc as ->. unfold GetNumber.
  rewrite (old_success_new v keys _ s "number" Hx);
    [|unfold checked_type; tauto|done].
  simpl. destruct (Float64 float64 ParseFloat n) as [r [e|]]; simpl; [done|].
  by intros [= ->].
Qed.

(** ** The further theorems at concrete documents *)

Lemma ErrorOnNull_result_not_nil_witness :
  VNumber "7" ≠ VNil.
Proof.
  apply (ErrorOnNull_result_not_nil nullData "number"
           [KOption ErrorOnNull; KString "list"; KInt 0]).
  - by left.
  - vm_compute. reflexivity.
Defined.

Lemma KeyError_points_at_segment_witness :
  0 ≤ 1 ∧ ∃ k, [KString "data"; KInt 0] !! Z.to_nat 1 = Some k ∧
               key_string k = "0".
Proof.
  apply (KeyError_points_at_segment testData "bool" [KString "data"; KInt 0]
           VNil "No array found").
  - vm_compute. reflexivity.
  - discriminate.
Defined.

Lemma KeyError_stable_under_extension_witness :
  GetPropertyWithType testData "string"
    ([KString "data"; KString "inexistentString"] ++ [KInt 5; KString "x"]) =
  Returns VNil (Some (KeyError "Object property not found" 1 "inexistentString")).
Proof.
  apply (KeyError_stable_under_extension testData "string"
           [KString "data"; KString "inexistentString"] [KInt 5; KString "x"]
           VNil).
  vm_compute. reflexivity.
Defined.

(** The example of the README: a lookup in [subData], got by [GetProperty],
    against the lookup from the document. *)
Lemma lookup_in_result_witness :
  same_outcome_but_Idx
    (GetString (VMap (list_to_map [("str", VString "a string");
                                   ("int", VNumber "42")]))
       [KString "str"])
    (GetString testData
       ([KString "data"; KString "subData"; KString "array"; KInt 0] ++
        [KString "str"])).
Proof.
  apply (lookup_in_result testData
           (VMap (list_to_map [("str", VString "a string");
                               ("int", VNumber "42")]))
           [KString "data"; KString "subData"; KString "array"; KInt 0]
           [KString "str"]).
  - reflexivity.
  - reflexivity.
  - discriminate.
  - vm_compute. reflexivity.
Defined.

Lemma old_GetProperty_other_key_witness :
  Old.GetProperty testData ([KString "data"] ++ KOther "true" :: []) =
  Old.Returned (VNil, "data") None.
Proof.
  eapply (old_GetProperty_other_key testData [KString "data"]
            (KOther "true") []).
  - reflexivity.
  - vm_compute. reflexivity.
  - reflexivity.
Defined.

Lemma old_and_new_GetProperty_witness :
  Old.GetProperty testData [KString "array"; KInt 3] = Old.Panicked.
Proof.
  pose proof (old_and_new_GetProperty testData [KString "array"; KInt 3]
                eq_refl) as H.
  vm_compute in H. vm_compute. exact H.
Defined.

Lemma old_accessors_on_null_witness :
  Old.GetString nullData [KString "list"; KInt 1] =
  Old.Returned "" (Some (Old.not_of_type "1" "string")).
Proof.
  eapply (old_accessors_on_null nullData [KString "list"; KInt 1]).
  - reflexivity.
  - vm_compute. reflexivity.
Defined.

Lemma GetInt_decimal_text_witness :
  GetInt testData [KString "array"; KInt 1] = Returns 2 None.
Proof.
  destruct (proj1 (proj2 (proj2
              (GetInt_decimal_text testData [KString "array"; KInt 1]))) "2")
    as [_ H].
  - vm_compute. reflexivity.
  - exact H.
Defined.
